(** * scripts/generate-builtin-terminfo.py: a shallow embedding

    The script reads a terminfo source file, splits it into entry headers
    and capabilities with one regular expression, expands [use]
    capabilities, patches the selected entry and writes its capabilities,
    sorted by name, as one C string literal.

    Python [str] values are modelled as [string] over the 8-bit alphabet
    [ascii], read as the code points 0..255; the character classes of the
    [re] module ([\w], [.]) and [str.strip] are given on that alphabet.
    Exceptions are modelled by the [result] type: a run either returns its
    value or raises, and nothing is written to the target before the last
    four statements of [main].  [assert] statements are executed (the
    script is not run with [-O]).  The text of the source file is taken as
    [readlines] sees it, line ends translated to the newline; integer
    literals are shorter than the interpreter's limit on the digits of a
    decimal conversion.  [os.uname().sysname] is an argument of [main]. *)

From Stdlib Require Import Bool Arith List ZArith NArith Lia.
From Stdlib Require Import Ascii String.
From Stdlib Require Import DecimalString HexadecimalString.
From Stdlib Require Import Permutation Sorted OrderedTypeEx.
Import ListNotations.

Local Open Scope string_scope.
Local Open Scope bool_scope.

(** ** Exceptions *)

Inductive Exception : Type :=
| AssertionError
| KeyError
| NotImplementedError
| ValueError.

Inductive result (A : Type) : Type :=
| Ok (a : A)
| Raise (e : Exception).

Arguments Ok {A} a.
Arguments Raise {A} e.

Definition bind {A B : Type} (r : result A) (k : A -> result B) : result B :=
  match r with
  | Ok a => k a
  | Raise e => Raise e
  end.

Notation "x <- r ;; k" := (bind r (fun x => k))
  (at level 61, r at next level, right associativity).

(** [assert b] *)
Definition assert (b : bool) : result unit :=
  if b then Ok tt else Raise AssertionError.

(** ** Characters *)

Definition ord (c : ascii) : N := N_of_ascii c.

Definition in_range (lo hi c : ascii) : bool :=
  (ord lo <=? ord c)%N && (ord c <=? ord hi)%N.

Definition dquote : ascii := "034"%char.
Definition newline : ascii := "010"%char.
Definition backslash : ascii := "\"%char.

(** [\w] of a [str] pattern: the alphanumeric characters ([str.isalnum])
    and the underscore; below 128 these are letters and digits, the other
    ranges are the alphanumeric code points of 128..255. *)
Definition is_word (c : ascii) : bool :=
  in_range "a" "z" c || in_range "A" "Z" c || in_range "0" "9" c
  || (c =? "_")%char
  || (ord c =? 170)%N || (ord c =? 178)%N || (ord c =? 179)%N
  || (ord c =? 181)%N || (ord c =? 185)%N || (ord c =? 186)%N
  || in_range "188" "190" c || in_range "192" "214" c
  || in_range "216" "246" c || in_range "248" "255" c.

(** [[-+\w@]] *)
Definition is_entry_name_chr (c : ascii) : bool :=
  (c =? "-")%char || (c =? "+")%char || is_word c || (c =? "@")%char.

(** [[0-9a-fA-F]] *)
Definition is_hex (c : ascii) : bool :=
  in_range "0" "9" c || in_range "a" "f" c || in_range "A" "F" c.

(** [[0-7]] *)
Definition is_octal (c : ascii) : bool := in_range "0" "7" c.

(** [.] (without DOTALL): any character but the newline *)
Definition is_dot (c : ascii) : bool := negb (c =? newline)%char.

(** what [str.strip()] removes *)
Definition is_space (c : ascii) : bool :=
  in_range "009" "013" c || in_range "028" "032" c
  || (ord c =? 133)%N || (ord c =? 160)%N.

(** ** StringCapability.__init__: the escape translation *)

(** [f'{n:02x}'] for a non-negative [n] *)
Definition format_02x (n : N) : string :=
  let s := HexadecimalString.NilZero.string_of_uint (N.to_hex_uint n) in
  match s with
  | String _ EmptyString => String "0" s
  | _ => s
  end.

(** the class [[@A-Z[\\\\\]^_?]] of the first pattern *)
Definition is_ctrl_chr (c : ascii) : bool :=
  (c =? "@")%char || in_range "A" "Z" c || (c =? "[")%char
  || (c =? backslash)%char || (c =? "]")%char || (c =? "^")%char
  || (c =? "_")%char || (c =? "?")%char.

Definition translate_ctrl_chr (ctrl : ascii) : string :=
  if (ctrl =? "?")%char then "\x7f"
  else "\x" ++ format_02x (ord ctrl - ord "@").

(** [re.sub(r'\^([@A-Z[\\\\\]^_?])', translate_ctrl_chr, value)]:
    left to right, a caret followed by a character of the class is
    replaced and the scan resumes behind the two characters. *)
Fixpoint sub_ctrl (value : string) : string :=
  match value with
  | EmptyString => EmptyString
  | String c t =>
      match t with
      | String x t' =>
          if (c =? "^")%char && is_ctrl_chr x
          then translate_ctrl_chr x ++ sub_ctrl t'
          else String c (sub_ctrl t)
      | EmptyString => String c EmptyString
      end
  end.

Definition is_Ee (c : ascii) : bool := (c =? "E")%char || (c =? "e")%char.

(** the replacement of the next step: backslash, 033, a quote, a blank, a
    quote, and the digit of group 2 *)
Definition esc_split (digit : ascii) : string :=
  "\033" ++ String dquote (String " " (String dquote (String digit EmptyString))).

(** [re.sub(r'(\\E|\\e)([0-7])', replacement, value)], the replacement
    being [esc_split] of the digit *)
Fixpoint sub_esc_digit (value : string) : string :=
  match value with
  | EmptyString => EmptyString
  | String c t =>
      match t with
      | String e (String d t') =>
          if (c =? backslash)%char && is_Ee e && is_octal d
          then esc_split d ++ sub_esc_digit t'
          else String c (sub_esc_digit t)
      | _ => String c (sub_esc_digit t)
      end
  end.

(** [re.sub(r'\\E|\\e', r'\\033', value)] *)
Fixpoint sub_esc (value : string) : string :=
  match value with
  | EmptyString => EmptyString
  | String c t =>
      match t with
      | String e t' =>
          if (c =? backslash)%char && is_Ee e
          then "\033" ++ sub_esc t'
          else String c (sub_esc t)
      | EmptyString => String c EmptyString
      end
  end.

(** [(,|:|\^)] *)
Definition is_meta (c : ascii) : bool :=
  (c =? ",")%char || (c =? ":")%char || (c =? "^")%char.

(** [re.sub(r'\\(,|:|\^)', r'\1', value)] *)
Fixpoint sub_unescape (value : string) : string :=
  match value with
  | EmptyString => EmptyString
  | String c t =>
      match t with
      | String x t' =>
          if (c =? backslash)%char && is_meta x
          then String x (sub_unescape t')
          else String c (sub_unescape t)
      | EmptyString => String c EmptyString
      end
  end.

(** [value.replace('\\s', ' ')] *)
Fixpoint replace_s (value : string) : string :=
  match value with
  | EmptyString => EmptyString
  | String c t =>
      match t with
      | String x t' =>
          if (c =? backslash)%char && (x =? "s")%char
          then String " " (replace_s t')
          else String c (replace_s t)
      | EmptyString => String c EmptyString
      end
  end.

(** [re.search(r'\\l', value)] as a truth value *)
Fixpoint search_l (value : string) : bool :=
  match value with
  | EmptyString => false
  | String c t =>
      match t with
      | String x _ => ((c =? backslash)%char && (x =? "l")%char) || search_l t
      | EmptyString => false
      end
  end.

(** the five rewriting steps, in the order of the source *)
Definition translate (value : string) : string :=
  replace_s (sub_unescape (sub_esc (sub_esc_digit (sub_ctrl value)))).

(** ** The capability classes *)

Inductive Capability : Type :=
| BoolCap (name : string)               (* value True *)
| IntCap (name : string) (value : Z)
| StrCap (name : string) (value : string).

Definition BoolCapability (name : string) : Capability := BoolCap name.

Definition IntCapability (name : string) (value : Z) : Capability :=
  IntCap name value.

Definition StringCapability (name value : string) : result Capability :=
  let value := translate value in
  if search_l value then Raise NotImplementedError
  else Ok (StrCap name value).

Definition cap_name (cap : Capability) : string :=
  match cap with
  | BoolCap n | IntCap n _ | StrCap n _ => n
  end.

Definition is_BoolCapability (cap : Capability) : bool :=
  match cap with BoolCap _ => true | _ => false end.

Definition is_StringCapability (cap : Capability) : bool :=
  match cap with StrCap _ _ => true | _ => false end.

(** [str(cap.value)]; the integer is one the interpreter converts, below
    its limit on the digits of a decimal conversion (4300 by default),
    above which [str] raises ValueError *)
Definition str_value (cap : Capability) : string :=
  match cap with
  | BoolCap _ => "True"
  | IntCap _ v => DecimalString.NilZero.string_of_int (Z.to_int v)
  | StrCap _ v => v
  end.

(** [Capability.__lt__] *)
Definition cap_lt (a b : Capability) : bool :=
  String.ltb (cap_name a) (cap_name b).

(** ** dict: insertion-ordered, keyed by [str] *)

Definition dict (V : Type) : Type := list (string * V).

Section Dict.
Context {V : Type}.

(** [d.get(k)] / [d[k]] *)
Fixpoint dict_get (d : dict V) (k : string) : option V :=
  match d with
  | [] => None
  | (k', v) :: d' => if (k' =? k)%string then Some v else dict_get d' k
  end.

(** [k in d] *)
Definition dict_in (k : string) (d : dict V) : bool :=
  match dict_get d k with Some _ => true | None => false end.

(** [d[k] = v]: a present key keeps its position, a new key goes last *)
Fixpoint dict_set (d : dict V) (k : string) (v : V) : dict V :=
  match d with
  | [] => [(k, v)]
  | (k', v') :: d' =>
      if (k' =? k)%string then (k, v) :: d' else (k', v') :: dict_set d' k v
  end.

(** the entries left by [del d[k]] *)
Fixpoint dict_remove (d : dict V) (k : string) : dict V :=
  match d with
  | [] => []
  | (k', v) :: d' =>
      if (k' =? k)%string then d' else (k', v) :: dict_remove d' k
  end.

(** [del d[k]] *)
Definition dict_del (d : dict V) (k : string) : result (dict V) :=
  if dict_in k d then Ok (dict_remove d k) else Raise KeyError.

(** [d[k]] as an expression *)
Definition dict_lookup (d : dict V) (k : string) : result V :=
  match dict_get d k with Some v => Ok v | None => Raise KeyError end.

Definition dict_keys (d : dict V) : list string := map fst d.
Definition dict_values (d : dict V) : list V := map snd d.
End Dict.

(** ** Fragment *)

Record Fragment : Type := mkFragment {
  frag_name : string;
  description : string;
  caps : dict Capability
}.

Definition new_Fragment (name description : string) : Fragment :=
  mkFragment name description [].

Definition with_caps (frag : Fragment) (c : dict Capability) : Fragment :=
  mkFragment (frag_name frag) (description frag) c.

Definition add_capability (frag : Fragment) (cap : Capability) : result Fragment :=
  _ <- assert (negb (dict_in (cap_name cap) (caps frag))) ;;
  Ok (with_caps frag (dict_set (caps frag) (cap_name cap) cap)).

Definition del_capability (frag : Fragment) (name : string) : result Fragment :=
  c <- dict_del (caps frag) name ;;
  Ok (with_caps frag c).

(** [for cap in l: frag.add_capability(cap)] *)
Fixpoint add_capabilities (frag : Fragment) (l : list Capability) : result Fragment :=
  match l with
  | [] => Ok frag
  | cap :: l' => frag' <- add_capability frag cap ;; add_capabilities frag' l'
  end.

(** ** The scan of the source text *)

(** the longest prefix of characters of a class, and what follows it *)
Fixpoint span (p : ascii -> bool) (s : string) : string * string :=
  match s with
  | EmptyString => (EmptyString, EmptyString)
  | String c t =>
      if p c then let (a, b) := span p t in (String c a, b)
      else (EmptyString, s)
  end.

(** [.*?,]: the shortest run of [.] that a comma follows *)
Fixpoint dots_comma (s : string) : option (string * string) :=
  match s with
  | EmptyString => None
  | String c t =>
      if (c =? ",")%char then Some (EmptyString, t)
      else if is_dot c then
        match dots_comma t with
        | Some (v, rest) => Some (String c v, rest)
        | None => None
        end
      else None
  end.

(** [.+?,]: the first character is taken whatever it is, a comma too *)
Definition dots1_comma (s : string) : option (string * string) :=
  match s with
  | EmptyString => None
  | String c t =>
      if is_dot c then
        match dots_comma t with
        | Some (v, rest) => Some (String c v, rest)
        | None => None
        end
      else None
  end.

(** The groups of a match object, one field per alternative of the
    pattern, with the inner groups of the alternative as its value;
    [None] is the [None] of [m.group]. *)
Record Match : Type := mkMatch {
  name_grp : option (string * string);      (* entry_name, entry_desc *)
  bool_cap : option string;                 (* bool_name *)
  int_cap : option (string * string);       (* int_name, int_val *)
  str_cap : option (string * string)        (* str_name, str_val *)
}.

(** [p+]: the longest run of characters of the class [p], not empty.  In
    every alternative the character that has to follow a run is outside
    the class of the run, so no shorter run can be followed by it. *)
Definition plus (p : ascii -> bool) (s : string) : option (string * string) :=
  match span p s with
  | (String c run, rest) => Some (String c run, rest)
  | (EmptyString, _) => None
  end.

(** one literal character *)
Definition expect (c : ascii) (s : string) : option string :=
  match s with
  | String c' rest => if (c' =? c)%char then Some rest else None
  | EmptyString => None
  end.

(** [(?P<name>(?P<entry_name>[-+\w@]+)\|(?P<entry_desc>.+?),)] *)
Definition match_name (s : string) : option (Match * string) :=
  match plus is_entry_name_chr s with
  | Some (entry_name, r) =>
      match expect "|" r with
      | Some r' =>
          match dots1_comma r' with
          | Some (entry_desc, rest) =>
              Some (mkMatch (Some (entry_name, entry_desc)) None None None, rest)
          | None => None
          end
      | None => None
      end
  | None => None
  end.

(** [(?P<bool_cap>(?P<bool_name>\w+),)] *)
Definition match_bool (s : string) : option (Match * string) :=
  match plus is_word s with
  | Some (bool_name, r) =>
      match expect "," r with
      | Some rest => Some (mkMatch None (Some bool_name) None None, rest)
      | None => None
      end
  | None => None
  end.

(** [[0-9a-fA-F]+,] *)
Definition hex_comma (s : string) : option (string * string) :=
  match plus is_hex s with
  | Some (digits, r) =>
      match expect "," r with
      | Some rest => Some (digits, rest)
      | None => None
      end
  | None => None
  end.

(** [(0x)?[0-9a-fA-F]+,]: with the prefix first, without it on failure *)
Definition int_val_comma (s : string) : option (string * string) :=
  match expect "0" s with
  | Some s' =>
      match expect "x" s' with
      | Some v =>
          match hex_comma v with
          | Some (digits, rest) => Some ("0x" ++ digits, rest)
          | None => hex_comma s
          end
      | None => hex_comma s
      end
  | None => hex_comma s
  end.

(** [(?P<int_cap>(?P<int_name>\w+)#(?P<int_val>(0x)?[0-9a-fA-F]+),)] *)
Definition match_int (s : string) : option (Match * string) :=
  match plus is_word s with
  | Some (int_name, r) =>
      match expect "#" r with
      | Some r' =>
          match int_val_comma r' with
          | Some (int_val, rest) =>
              Some (mkMatch None None (Some (int_name, int_val)) None, rest)
          | None => None
          end
      | None => None
      end
  | None => None
  end.

(** [(?P<str_cap>(?P<str_name>\w+)=(?P<str_val>(.+?)),)] *)
Definition match_str (s : string) : option (Match * string) :=
  match plus is_word s with
  | Some (str_name, r) =>
      match expect "=" r with
      | Some r' =>
          match dots1_comma r' with
          | Some (str_val, rest) =>
              Some (mkMatch None None None (Some (str_name, str_val)), rest)
          | None => None
          end
      | None => None
      end
  | None => None
  end.

(** the four alternatives at one position, the first that matches wins *)
Definition match_at (s : string) : option (Match * string) :=
  match match_name s with
  | Some r => Some r
  | None =>
      match match_bool s with
      | Some r => Some r
      | None =>
          match match_int s with
          | Some r => Some r
          | None => match_str s
          end
      end
  end.

(** [re.finditer(pattern, text)]: at a position where the pattern matches,
    the match is yielded and the scan resumes behind it ([skip] counts the
    characters of the match still to pass); elsewhere the scan moves one
    character on. *)
Fixpoint finditer_from (skip : nat) (text : string) : list Match :=
  match text with
  | EmptyString => []
  | String _ t =>
      match skip with
      | S k => finditer_from k t
      | O =>
          match match_at text with
          | Some (m, rest) => m :: finditer_from (length t - length rest) t
          | None => finditer_from 0 t
          end
      end
  end.

Definition finditer (text : string) : list Match := finditer_from 0 text.

(** ** int(literal, 0) *)

Definition digit_value (c : ascii) : option N :=
  if in_range "0" "9" c then Some (ord c - ord "0")%N
  else if in_range "a" "z" c then Some (ord c - ord "a" + 10)%N
  else if in_range "A" "Z" c then Some (ord c - ord "A" + 10)%N
  else None.

Fixpoint digits_value (base acc : N) (s : string) : option N :=
  match s with
  | EmptyString => Some acc
  | String c t =>
      match digit_value c with
      | Some d => if (d <? base)%N then digits_value base (acc * base + d)%N t else None
      | None => None
      end
  end.

Definition literal (base : N) (digits : string) : result Z :=
  match digits with
  | EmptyString => Raise ValueError
  | _ =>
      match digits_value base 0 digits with
      | Some n => Ok (Z.of_N n)
      | None => Raise ValueError
      end
  end.

Fixpoint all_zeros (s : string) : bool :=
  match s with
  | EmptyString => true
  | String c t => (c =? "0")%char && all_zeros t
  end.

(** [int(s, 0)] on the texts the group [int_val] can hold (no sign, blank
    or underscore): a prefix selects base 16, 8 or 2 (the digits of [0b1]
    are all hexadecimal digits, so the pattern lets it through), a decimal
    literal has no leading zero unless it is zero, anything else is a
    ValueError. *)
Definition int_base0 (s : string) : result Z :=
  match s with
  | String z (String p d) =>
      if negb (z =? "0")%char then literal 10 s
      else if (p =? "x")%char || (p =? "X")%char then literal 16 d
      else if (p =? "o")%char || (p =? "O")%char then literal 8 d
      else if (p =? "b")%char || (p =? "B")%char then literal 2 d
      else if all_zeros s then Ok 0%Z else Raise ValueError
  | _ => literal 10 s
  end.

(** ** Reading the source *)

(** [source.readlines()]: every line with its line end *)
Fixpoint readlines (source : string) : list string :=
  match source with
  | EmptyString => []
  | String c t =>
      if (c =? newline)%char then String c EmptyString :: readlines t
      else
        match readlines t with
        | [] => [String c EmptyString]
        | l :: ls => String c l :: ls
        end
  end.

Fixpoint lstrip (s : string) : string :=
  match s with
  | EmptyString => EmptyString
  | String c t => if is_space c then lstrip t else s
  end.

Fixpoint rstrip (s : string) : string :=
  match s with
  | EmptyString => EmptyString
  | String c t =>
      match rstrip t with
      | EmptyString => if is_space c then EmptyString else String c EmptyString
      | t' => String c t'
      end
  end.

Definition strip (s : string) : string := rstrip (lstrip s).

Definition startswith (c : ascii) (s : string) : bool :=
  match s with
  | String c' _ => (c' =? c)%char
  | EmptyString => false
  end.

(** the list [lines] of [main] *)
Definition source_lines (source : string) : list string :=
  filter (fun line => negb (startswith "#" line)) (map strip (readlines source)).

(** [''.join(lines)] *)
Definition join_lines (lines : list string) : string :=
  String.concat EmptyString lines.

(** ** The parse loop *)

(** [fragments] and [cur_fragment]; the current fragment is an object of
    the registry, it is held by its key. *)
Definition ParseState : Type := dict Fragment * option string.

(** a method call on the fragment object stored under [key] *)
Definition on_fragment (fragments : dict Fragment) (key : string)
    (method : Fragment -> result Fragment) : result (dict Fragment) :=
  frag <- dict_lookup fragments key ;;
  frag' <- method frag ;;
  Ok (dict_set fragments key frag').

(** [assert cur_fragment is not None] *)
Definition assert_not_None (cur_fragment : option string) : result string :=
  match cur_fragment with
  | Some key => Ok key
  | None => Raise AssertionError
  end.

(** the body of the loop over the matches *)
Definition parse_match (st : ParseState) (m : Match) : result ParseState :=
  let (fragments, cur_fragment) := st in
  match name_grp m with
  | Some (name, description) =>
      _ <- assert (negb (dict_in name fragments)) ;;
      Ok (dict_set fragments name (new_Fragment name description), Some name)
  | None =>
  match bool_cap m with
  | Some name =>
      cur <- assert_not_None cur_fragment ;;
      fragments' <- on_fragment fragments cur
                      (fun frag => add_capability frag (BoolCapability name)) ;;
      Ok (fragments', cur_fragment)
  | None =>
  match int_cap m with
  | Some (name, int_val) =>
      int_value <- int_base0 int_val ;;
      cur <- assert_not_None cur_fragment ;;
      fragments' <- on_fragment fragments cur
                      (fun frag => add_capability frag (IntCapability name int_value)) ;;
      Ok (fragments', cur_fragment)
  | None =>
  match str_cap m with
  | Some (name, str_value) =>
      cur <- assert_not_None cur_fragment ;;
      cap <- StringCapability name str_value ;;
      fragments' <- on_fragment fragments cur (fun frag => add_capability frag cap) ;;
      Ok (fragments', cur_fragment)
  | None => Raise AssertionError             (* assert False *)
  end end end end.

Fixpoint parse_matches (st : ParseState) (ms : list Match) : result ParseState :=
  match ms with
  | [] => Ok st
  | m :: ms' => st' <- parse_match st m ;; parse_matches st' ms'
  end.

(** the registry built from the joined text *)
Definition parse (text : string) : result (dict Fragment) :=
  st <- parse_matches ([], None) (finditer text) ;;
  Ok (fst st).

(** ** Expansion of [use] *)

(** The body of the loop over the fragments, for the fragment stored under
    [key].  The inner loop looks at the first capability only: its body
    ends with [break], and the deletion before it is outside the [if]. *)
Definition expand_fragment (fragments : dict Fragment) (key : string)
    : result (dict Fragment) :=
  frag <- dict_lookup fragments key ;;
  match dict_values (caps frag) with
  | [] => Ok fragments
  | cap :: _ =>
      frag1 <-
        (if (cap_name cap =? "use")%string then
           _ <- assert (is_StringCapability cap) ;;
           use_frag <- dict_lookup fragments (str_value cap) ;;
           add_capabilities frag (dict_values (caps use_frag))
         else Ok frag) ;;
      frag2 <- del_capability frag1 (cap_name cap) ;;
      Ok (dict_set fragments key frag2)
  end.

Fixpoint expand_keys (fragments : dict Fragment) (keys : list string)
    : result (dict Fragment) :=
  match keys with
  | [] => Ok fragments
  | key :: keys' =>
      fragments' <- expand_fragment fragments key ;;
      expand_keys fragments' keys'
  end.

(** [for frag in fragments.values(): ...] *)
Definition expand_uses (fragments : dict Fragment) : result (dict Fragment) :=
  expand_keys fragments (dict_keys fragments).

(** ** The patch of the selected entry *)

(** [try: entry.del_capability('RGB') except KeyError: pass] *)
Definition del_RGB (entry : Fragment) : result Fragment :=
  match del_capability entry "RGB" with
  | Ok entry' => Ok entry'
  | Raise KeyError => Ok entry
  | Raise e => Raise e
  end.

Definition patch (entry : Fragment) (target_entry_name sysname : string)
    : result Fragment :=
  entry <- del_RGB entry ;;
  entry <- add_capability entry (IntCapability "Co" 256) ;;
  cap <- StringCapability "TN" target_entry_name ;;
  entry <- add_capability entry cap ;;
  cap <- StringCapability "name" target_entry_name ;;
  entry <- add_capability entry cap ;;
  entry <- add_capability entry (IntCapability "RGB" 8) ;;
  cap <- StringCapability "query-os-name" sysname ;;
  add_capability entry cap.

(** ** The output *)

(** [sorted(l)]: a stable sort that compares with [__lt__] only *)
Fixpoint insert_sorted (cap : Capability) (l : list Capability) : list Capability :=
  match l with
  | [] => [cap]
  | c :: l' => if cap_lt c cap then c :: insert_sorted cap l' else cap :: l
  end.

Fixpoint sorted (l : list Capability) : list Capability :=
  match l with
  | [] => []
  | cap :: l' => insert_sorted cap (sorted l')
  end.

(** [s.replace(old, new)] for a one-character [old] *)
Fixpoint replace_chr (old : ascii) (new : string) (s : string) : string :=
  match s with
  | EmptyString => EmptyString
  | String c t =>
      if (c =? old)%char then new ++ replace_chr old new t
      else String c (replace_chr old new t)
  end.

(** the second argument of [replace], a Python literal made of a
    backslash and a quote between apostrophes: that escape stands for the
    quote itself, the literal is the one-character string *)
Definition quote_literal : string := String dquote EmptyString.

(** [s.replace(quote, quote_literal)] *)
Definition escape_quote (s : string) : string :=
  replace_chr dquote quote_literal s.

(** the two parts a capability appends to [terminfo_parts] *)
Definition cap_parts (cap : Capability) : list string :=
  let name := escape_quote (cap_name cap) in
  let value := escape_quote (str_value cap) in
  [name; if is_BoolCapability cap then EmptyString else value].

Fixpoint terminfo_parts (l : list Capability) : list string :=
  match l with
  | [] => []
  | cap :: l' => cap_parts cap ++ terminfo_parts l'
  end.

(** the separator: backslash, 0, quote, blank, quote *)
Definition separator : string :=
  "\0" ++ String dquote (String " " (String dquote EmptyString)).

(** [terminfo]: the joined parts of the sorted capabilities *)
Definition serialize (entry : Fragment) : string :=
  String.concat separator (terminfo_parts (sorted (dict_values (caps entry)))).

(** everything written to [target], in order *)
Definition written (terminfo : string) : string :=
  "#pragma once" ++ String newline EmptyString
  ++ String newline EmptyString
  ++ "static const char terminfo_capabilities[] = " ++ String dquote EmptyString
  ++ terminfo ++ String dquote ";"
  ++ String newline EmptyString.

(** ** main *)

(** [main] from the registry on: expansion, selection, patch, output *)
Definition generate (fragments : dict Fragment)
    (source_entry_name target_entry_name sysname : string) : result string :=
  fragments <- expand_uses fragments ;;
  entry <- dict_lookup fragments source_entry_name ;;
  entry <- patch entry target_entry_name sysname ;;
  Ok (written (serialize entry)).

(** [main] on the joined text *)
Definition main_text (text source_entry_name target_entry_name sysname : string)
    : result string :=
  fragments <- parse text ;;
  generate fragments source_entry_name target_entry_name sysname.

(** [main]: [source] is the content of the source file, [sysname] is
    [os.uname().sysname]; the result is the content written to the target,
    or the exception that ends the run before anything is written. *)
Definition main (source_entry_name source target_entry_name sysname : string)
    : result string :=
  main_text (join_lines (source_lines source))
            source_entry_name target_entry_name sysname.

(** ** Notions of the statements *)

(** a string without backslash and caret: no pattern of the translation
    starts or continues in it *)
Fixpoint plain (s : string) : bool :=
  match s with
  | EmptyString => true
  | String c t => negb (c =? backslash)%char && negb (c =? "^")%char && plain t
  end.

(** the second characters of the patterns that start with a backslash *)
Definition is_escape_letter (x : ascii) : bool :=
  is_Ee x || is_meta x || (x =? "s")%char.

(** a backslash, a character that is no escape letter, plain text *)
Definition inert_block (x : ascii) (r : string) : bool :=
  negb (is_escape_letter x) && negb (x =? backslash)%char && plain r.

(** the scan of the first step has passed [s] with a caret in hand: the
    last character is a caret that no earlier escape has consumed *)
Fixpoint ctrl_pending (s : string) : bool :=
  match s with
  | EmptyString => false
  | String c t =>
      match t with
      | EmptyString => (c =? "^")%char
      | String x t' =>
          if (c =? "^")%char && is_ctrl_chr x then ctrl_pending t'
          else ctrl_pending t
      end
  end.

(** the lower-case hexadecimal digit of a number below 16 *)
Definition hex_digit (n : N) : ascii :=
  if (n <? 10)%N then ascii_of_N (ord "0" + n) else ascii_of_N (ord "a" + (n - 10)).

Definition two_hex_digits (n : N) : string :=
  String (hex_digit (n / 16)) (String (hex_digit (n mod 16)) EmptyString).

(** what the escape [^X] is to become: DEL for [^?], otherwise the
    character with the code [ord(X) - ord('@')], as [\x] and two digits *)
Definition ctrl_code (X : ascii) : string :=
  if (X =? "?")%char then "\x7f" else "\x" ++ two_hex_digits (ord X - ord "@").

Definition starts_with_octal (s : string) : bool :=
  match s with
  | String d _ => is_octal d
  | EmptyString => false
  end.

(** close the literal, a blank, open the next one *)
Definition quote_split : string :=
  String dquote (String " " (String dquote EmptyString)).

(** a quote stands in [s] with no backslash before it *)
Fixpoint bare_quote (s : string) : bool :=
  match s with
  | EmptyString => false
  | String c t =>
      (c =? dquote)%char
      || match t with
         | String x t' =>
             if (c =? backslash)%char && (x =? dquote)%char then bare_quote t'
             else bare_quote t
         | EmptyString => false
         end
  end.

(** the source [xterm|d,am,s=aQb,] with a quote for Q *)
Definition quoted_source : string :=
  "xterm|d,am,s=a" ++ String dquote "b,".

(** the keys of a dict are distinct *)
Fixpoint unique_keys {V : Type} (d : dict V) : bool :=
  match d with
  | [] => true
  | (k, _) :: d' => negb (dict_in k d') && unique_keys d'
  end.

(** the number of entries under a key *)
Definition count_key {V : Type} (k : string) (d : dict V) : nat :=
  List.length (filter (fun kv => (fst kv =? k)%string) d).

(** the capabilities the patch appends *)
Definition patched_caps (target_entry_name sysname : string) : dict Capability :=
  [("Co", IntCap "Co" 256);
   ("TN", StrCap "TN" (translate target_entry_name));
   ("name", StrCap "name" (translate target_entry_name));
   ("RGB", IntCap "RGB" 8);
   ("query-os-name", StrCap "query-os-name" (translate sysname))].

(** the source of two entries, the first using the second *)
Definition use_source : string :=
  "A|first,a1,use=B," ++ "B|second,x,y,".

(** some alternative of the pattern took part in the match *)
Definition has_group (m : Match) : bool :=
  match name_grp m, bool_cap m, int_cap m, str_cap m with
  | None, None, None, None => false
  | _, _, _, _ => true
  end.

(** no character of [s] can begin a match: every alternative begins with
    a character of [[-+\w@]] *)
Fixpoint no_token_start (s : string) : bool :=
  match s with
  | EmptyString => true
  | String c t => negb (is_entry_name_chr c) && no_token_start t
  end.

(** a fragment with its description blanked *)
Definition no_description (frag : Fragment) : Fragment :=
  mkFragment (frag_name frag) EmptyString (caps frag).

Definition no_descriptions (fragments : dict Fragment) : dict Fragment :=
  map (fun kv => (fst kv, no_description (snd kv))) fragments.

Definition map_result {A B : Type} (f : A -> B) (r : result A) : result B :=
  match r with
  | Ok a => Ok (f a)
  | Raise e => Raise e
  end.

(** ** The other comparisons of Capability *)

(** [Capability.__le__] *)
Definition cap_le (a b : Capability) : bool :=
  String.leb (cap_name a) (cap_name b).

(** [Capability.__eq__] *)
Definition cap_eq (a b : Capability) : bool :=
  String.eqb (cap_name a) (cap_name b).

(** [Capability.__ne__] *)
Definition cap_ne (a b : Capability) : bool :=
  negb (String.eqb (cap_name a) (cap_name b)).

(** [Capability.__gt__] *)
Definition cap_gt (a b : Capability) : bool :=
  match String.compare (cap_name a) (cap_name b) with
  | Gt => true
  | _ => false
  end.

(** [Capability.__ge__] *)
Definition cap_ge (a b : Capability) : bool :=
  match String.compare (cap_name a) (cap_name b) with
  | Lt => false
  | _ => true
  end.

(** the text begins with a character of the class of control names *)
Definition starts_with_ctrl (s : string) : bool :=
  match s with
  | String x _ => is_ctrl_chr x
  | EmptyString => false
  end.

(** the letters of the escapes the translation lets through: [\n], [\r],
    [\t], [\b], [\f] *)
Definition is_fall_through (x : ascii) : bool :=
  (x =? "n")%char || (x =? "r")%char || (x =? "t")%char
  || (x =? "b")%char || (x =? "f")%char.

(** the names under which the patch adds a capability or removes one *)
Definition is_patched_name (k : string) : bool :=
  (k =? "RGB")%string || (k =? "Co")%string || (k =? "TN")%string
  || (k =? "name")%string || (k =? "query-os-name")%string.

(** the names of a list of capabilities are distinct *)
Fixpoint distinct_names (l : list Capability) : bool :=
  match l with
  | [] => true
  | cap :: l' =>
      negb (existsb (fun cap' => (cap_name cap' =? cap_name cap)%string) l')
      && distinct_names l'
  end.

(** no name of [l] is a key of [d] *)
Definition fresh_names (d : dict Capability) (l : list Capability) : bool :=
  forallb (fun cap => negb (dict_in (cap_name cap) d)) l.

(** the entries under which [add_capability] stores a list of
    capabilities *)
Definition entries_of (l : list Capability) : dict Capability :=
  map (fun cap => (cap_name cap, cap)) l.

(** key, name and description of every fragment of a registry, in order *)
Definition heads (fragments : dict Fragment) : list (string * (string * string)) :=
  map (fun kv => (fst kv, (frag_name (snd kv), description (snd kv)))) fragments.

(** a fragment without its first capability *)
Definition drop_first (frag : Fragment) : Fragment :=
  with_caps frag (tl (caps frag)).

(** the first capability of the fragment, if there is one, is stored under
    its name and is not named [use] *)
Definition first_not_use (frag : Fragment) : bool :=
  match caps frag with
  | [] => true
  | (k, cap) :: _ =>
      (cap_name cap =? k)%string && negb (cap_name cap =? "use")%string
  end.

(** every capability is stored under its name *)
Definition keys_are_names (d : dict Capability) : bool :=
  forallb (fun kv => (cap_name (snd kv) =? fst kv)%string) d.

(** the fragment stored under [key] bears that name, and its capabilities
    have distinct keys, each its name *)
Definition fragment_ok (key : string) (frag : Fragment) : bool :=
  (frag_name frag =? key)%string && unique_keys (caps frag)
  && keys_are_names (caps frag).

Definition registry_ok (fragments : dict Fragment) : bool :=
  unique_keys fragments
  && forallb (fun kv => fragment_ok (fst kv) (snd kv)) fragments.

(** the current fragment, if there is one, is a fragment of the registry *)
Definition current_ok (st : ParseState) : bool :=
  match snd st with
  | None => true
  | Some key => dict_in key (fst st)
  end.

(** the entry names of the headers among the matches, in order *)
Fixpoint header_names (ms : list Match) : list string :=
  match ms with
  | [] => []
  | m :: ms' =>
      match name_grp m with
      | Some (name, _) => name :: header_names ms'
      | None => header_names ms'
      end
  end.

(** the text holds no newline *)
Fixpoint no_newline (s : string) : bool :=
  match s with
  | EmptyString => true
  | String c t => negb (c =? newline)%char && no_newline t
  end.

(** every character of the text is of the class *)
Fixpoint all_chars (p : ascii -> bool) (s : string) : bool :=
  match s with
  | EmptyString => true
  | String c t => p c && all_chars p t
  end.

Definition nonempty (s : string) : bool :=
  match s with
  | EmptyString => false
  | String _ _ => true
  end.

(** a value of [.+?] before a comma: not empty, no newline, and no comma
    behind the first character *)
Definition lazy_value (s : string) : bool :=
  match s with
  | EmptyString => false
  | String c t =>
      is_dot c && all_chars is_dot t
      && all_chars (fun x => negb (x =? ",")%char) t
  end.

(** a text of [(0x)?[0-9a-fA-F]+] *)
Definition is_int_val (s : string) : bool :=
  (nonempty s && all_chars is_hex s)
  || match s with
     | String z (String x d) =>
         (z =? "0")%char && (x =? "x")%char && nonempty d && all_chars is_hex d
     | _ => false
     end.

(** the match has exactly one of its four groups set, and the inner groups
    are texts of their patterns *)
Definition match_shape (m : Match) : bool :=
  match name_grp m, bool_cap m, int_cap m, str_cap m with
  | Some (n, d), None, None, None =>
      nonempty n && all_chars is_entry_name_chr n && lazy_value d
  | None, Some n, None, None => nonempty n && all_chars is_word n
  | None, None, Some (n, v), None =>
      nonempty n && all_chars is_word n && is_int_val v
  | None, None, None, Some (n, v) =>
      nonempty n && all_chars is_word n && lazy_value v
  | _, _, _, _ => false
  end.

(** a newline stands at the end of the text or nowhere *)
Fixpoint newline_only_last (s : string) : bool :=
  match s with
  | EmptyString => true
  | String c t =>
      match t with
      | EmptyString => true
      | String _ _ => negb (c =? newline)%char && newline_only_last t
      end
  end.

(** the text is empty or begins with a character that is no blank *)
Definition head_not_space (s : string) : bool :=
  match s with
  | EmptyString => true
  | String c _ => negb (is_space c)
  end.

(** * Properties *)

(** ** Strings *)

Lemma append_nil_r (s : string) : s ++ EmptyString = s.
Proof. induction s as [|c s IH]; simpl; [reflexivity | now rewrite IH]. Qed.

Lemma append_assoc (a b c : string) : (a ++ b) ++ c = a ++ (b ++ c).
Proof. induction a as [|x a IH]; simpl; [reflexivity | now rewrite IH]. Qed.

Lemma length_append (a b : string) : length (a ++ b) = length a + length b.
Proof. induction a as [|x a IH]; simpl; [reflexivity | now rewrite IH]. Qed.

Lemma string_length_ind (P : string -> Prop) :
  (forall s, (forall t, length t < length s -> P t) -> P s) -> forall s, P s.
Proof.
  intros step s.
  remember (length s) as n eqn:Hn.
  revert s Hn.
  induction n as [n IH] using lt_wf_ind.
  intros s ->. apply step. intros t Ht. now apply (IH (length t)).
Qed.

Ltac bool_cases :=
  repeat match goal with
         | H : _ || _ = false |- _ => apply orb_false_iff in H; destruct H
         | H : _ && _ = true |- _ => apply andb_true_iff in H; destruct H
         | H : negb _ = true |- _ => apply negb_true_iff in H
         end.

(** ** The steps of the translation, character by character *)

Section Steps.
Variable c : ascii.
Hypothesis c_not_bs : (c =? backslash)%char = false.

Lemma sub_esc_digit_cons s : sub_esc_digit (String c s) = String c (sub_esc_digit s).
Proof. destruct s as [|e [|d t]]; simpl; rewrite ?c_not_bs; reflexivity. Qed.

Lemma sub_esc_cons s : sub_esc (String c s) = String c (sub_esc s).
Proof. destruct s as [|e t]; simpl; rewrite ?c_not_bs; reflexivity. Qed.

Lemma sub_unescape_cons s : sub_unescape (String c s) = String c (sub_unescape s).
Proof. destruct s as [|e t]; simpl; rewrite ?c_not_bs; reflexivity. Qed.

Lemma replace_s_cons s : replace_s (String c s) = String c (replace_s s).
Proof. destruct s as [|e t]; simpl; rewrite ?c_not_bs; reflexivity. Qed.

Lemma search_l_cons s : search_l (String c s) = search_l s.
Proof. destruct s as [|e t]; simpl; rewrite ?c_not_bs; reflexivity. Qed.
End Steps.

Lemma sub_ctrl_cons c s :
  (c =? "^")%char = false -> sub_ctrl (String c s) = String c (sub_ctrl s).
Proof. intros H. destruct s as [|e t]; simpl; rewrite ?H; reflexivity. Qed.

(** a backslash that no escape letter follows stays *)
Section Backslash.
Variable x : ascii.
Hypothesis x_inert : is_escape_letter x = false.

Lemma sub_esc_digit_bs s :
  sub_esc_digit (String backslash (String x s))
  = String backslash (sub_esc_digit (String x s)).
Proof.
  unfold is_escape_letter in x_inert. bool_cases.
  destruct s as [|d t]; cbn [sub_esc_digit]; [reflexivity|].
  replace (is_Ee x) with false by auto. now rewrite andb_false_r.
Qed.

Lemma sub_esc_bs s :
  sub_esc (String backslash (String x s)) = String backslash (sub_esc (String x s)).
Proof.
  unfold is_escape_letter in x_inert. bool_cases.
  cbn [sub_esc]. replace (is_Ee x) with false by auto. now rewrite andb_false_r.
Qed.

Lemma sub_unescape_bs s :
  sub_unescape (String backslash (String x s))
  = String backslash (sub_unescape (String x s)).
Proof.
  unfold is_escape_letter in x_inert. bool_cases.
  cbn [sub_unescape]. replace (is_meta x) with false by auto. now rewrite andb_false_r.
Qed.

Lemma replace_s_bs s :
  replace_s (String backslash (String x s)) = String backslash (replace_s (String x s)).
Proof.
  unfold is_escape_letter in x_inert. bool_cases.
  cbn [replace_s]. replace (x =? "s")%char with false by auto. now rewrite andb_false_r.
Qed.
End Backslash.

(** the equations of the steps at a string of two or three characters *)
Lemma sub_ctrl_eq c x t :
  sub_ctrl (String c (String x t))
  = if (c =? "^")%char && is_ctrl_chr x then translate_ctrl_chr x ++ sub_ctrl t
    else String c (sub_ctrl (String x t)).
Proof. reflexivity. Qed.

Lemma sub_esc_digit_eq c e d t :
  sub_esc_digit (String c (String e (String d t)))
  = if (c =? backslash)%char && is_Ee e && is_octal d
    then esc_split d ++ sub_esc_digit t
    else String c (sub_esc_digit (String e (String d t))).
Proof. reflexivity. Qed.

Lemma sub_esc_eq c e t :
  sub_esc (String c (String e t))
  = if (c =? backslash)%char && is_Ee e then "\033" ++ sub_esc t
    else String c (sub_esc (String e t)).
Proof. reflexivity. Qed.

Lemma sub_unescape_eq c x t :
  sub_unescape (String c (String x t))
  = if (c =? backslash)%char && is_meta x then String x (sub_unescape t)
    else String c (sub_unescape (String x t)).
Proof. reflexivity. Qed.

Lemma replace_s_eq c x t :
  replace_s (String c (String x t))
  = if (c =? backslash)%char && (x =? "s")%char then String " " (replace_s t)
    else String c (replace_s (String x t)).
Proof. reflexivity. Qed.

Lemma search_l_eq c x t :
  search_l (String c (String x t))
  = ((c =? backslash)%char && (x =? "l")%char) || search_l (String x t).
Proof. reflexivity. Qed.

(** a character before a backslash is never the start of a match *)
Lemma sub_esc_digit_before_bs c s :
  sub_esc_digit (String c (String backslash s))
  = String c (sub_esc_digit (String backslash s)).
Proof.
  destruct s as [|d t]; [reflexivity|].
  rewrite sub_esc_digit_eq. now rewrite andb_false_r.
Qed.

(** ** A backslash is a boundary of every step behind the first *)

Lemma sub_esc_digit_boundary a s :
  sub_esc_digit (a ++ String backslash s)
  = sub_esc_digit a ++ sub_esc_digit (String backslash s).
Proof.
  induction a as [a IH] using string_length_ind.
  destruct a as [|c [|e [|d a]]].
  - reflexivity.
  - cbn [append]. now rewrite sub_esc_digit_before_bs.
  - cbn [append]. rewrite sub_esc_digit_eq.
    replace (is_octal backslash) with false by reflexivity.
    rewrite andb_false_r. now rewrite sub_esc_digit_before_bs.
  - cbn [append]. rewrite !sub_esc_digit_eq.
    destruct ((c =? backslash)%char && is_Ee e && is_octal d).
    + rewrite IH by (simpl; lia). now rewrite append_assoc.
    + change (String e (String d (a ++ String backslash s)))
        with (String e (String d a) ++ String backslash s).
      now rewrite IH by (simpl; lia).
Qed.

Lemma sub_esc_boundary a s :
  sub_esc (a ++ String backslash s) = sub_esc a ++ sub_esc (String backslash s).
Proof.
  induction a as [a IH] using string_length_ind.
  destruct a as [|c [|e a]].
  - reflexivity.
  - cbn [append]. rewrite sub_esc_eq. now rewrite andb_false_r.
  - cbn [append]. rewrite !sub_esc_eq.
    destruct ((c =? backslash)%char && is_Ee e).
    + rewrite IH by (simpl; lia). now rewrite append_assoc.
    + change (String e (a ++ String backslash s))
        with (String e a ++ String backslash s).
      now rewrite IH by (simpl; lia).
Qed.

Lemma sub_unescape_boundary a s :
  sub_unescape (a ++ String backslash s)
  = sub_unescape a ++ sub_unescape (String backslash s).
Proof.
  induction a as [a IH] using string_length_ind.
  destruct a as [|c [|e a]].
  - reflexivity.
  - cbn [append]. rewrite sub_unescape_eq. now rewrite andb_false_r.
  - cbn [append]. rewrite !sub_unescape_eq.
    destruct ((c =? backslash)%char && is_meta e).
    + now rewrite IH by (simpl; lia).
    + change (String e (a ++ String backslash s))
        with (String e a ++ String backslash s).
      now rewrite IH by (simpl; lia).
Qed.

Lemma replace_s_boundary a s :
  replace_s (a ++ String backslash s) = replace_s a ++ replace_s (String backslash s).
Proof.
  induction a as [a IH] using string_length_ind.
  destruct a as [|c [|e a]].
  - reflexivity.
  - cbn [append]. rewrite replace_s_eq. now rewrite andb_false_r.
  - cbn [append]. rewrite !replace_s_eq.
    destruct ((c =? backslash)%char && (e =? "s")%char).
    + now rewrite IH by (simpl; lia).
    + change (String e (a ++ String backslash s))
        with (String e a ++ String backslash s).
      now rewrite IH by (simpl; lia).
Qed.

Lemma search_l_boundary a s :
  search_l (a ++ String backslash s) = search_l a || search_l (String backslash s).
Proof.
  induction a as [|c a IH]; [reflexivity|].
  destruct a as [|e a].
  - cbn [append]. rewrite search_l_eq. now rewrite andb_false_r.
  - change (String c (String e a) ++ String backslash s)
      with (String c (String e a ++ String backslash s)).
    cbn [append] in *. rewrite !search_l_eq, IH. now rewrite orb_assoc.
Qed.

(** ** Plain text passes every step unchanged *)

Section Plain.
Variable step : string -> string.
Hypothesis step_cons :
  forall c, (c =? backslash)%char = false ->
  forall s, step (String c s) = String c (step s).

Lemma step_plain r b : plain r = true -> step (r ++ b) = r ++ step b.
Proof.
  induction r as [|c r IH]; intros H; [reflexivity|].
  cbn [plain] in H. bool_cases. cbn [append].
  rewrite step_cons by assumption. now rewrite IH.
Qed.
End Plain.

Lemma sub_ctrl_plain r b : plain r = true -> sub_ctrl (r ++ b) = r ++ sub_ctrl b.
Proof.
  induction r as [|c r IH]; intros H; [reflexivity|].
  cbn [plain] in H. bool_cases. cbn [append].
  rewrite sub_ctrl_cons by assumption. now rewrite IH.
Qed.

(** ** Blocks the later steps leave alone *)

Section Block.
Variables (x : ascii) (r : string).
Hypothesis inert : inert_block x r = true.

Let x_letter : is_escape_letter x = false.
Proof. unfold inert_block in inert. now bool_cases. Qed.
Let x_bs : (x =? backslash)%char = false.
Proof. unfold inert_block in inert. now bool_cases. Qed.
Let r_plain : plain r = true.
Proof. unfold inert_block in inert. now bool_cases. Qed.

Lemma sub_esc_digit_block a b :
  sub_esc_digit (a ++ String backslash (String x (r ++ b)))
  = sub_esc_digit a ++ String backslash (String x (r ++ sub_esc_digit b)).
Proof.
  rewrite sub_esc_digit_boundary, sub_esc_digit_bs, sub_esc_digit_cons by assumption.
  now rewrite (step_plain sub_esc_digit sub_esc_digit_cons).
Qed.

Lemma sub_esc_block a b :
  sub_esc (a ++ String backslash (String x (r ++ b)))
  = sub_esc a ++ String backslash (String x (r ++ sub_esc b)).
Proof.
  rewrite sub_esc_boundary, sub_esc_bs, sub_esc_cons by assumption.
  now rewrite (step_plain sub_esc sub_esc_cons).
Qed.

Lemma sub_unescape_block a b :
  sub_unescape (a ++ String backslash (String x (r ++ b)))
  = sub_unescape a ++ String backslash (String x (r ++ sub_unescape b)).
Proof.
  rewrite sub_unescape_boundary, sub_unescape_bs, sub_unescape_cons by assumption.
  now rewrite (step_plain sub_unescape sub_unescape_cons).
Qed.

Lemma replace_s_block a b :
  replace_s (a ++ String backslash (String x (r ++ b)))
  = replace_s a ++ String backslash (String x (r ++ replace_s b)).
Proof.
  rewrite replace_s_boundary, replace_s_bs, replace_s_cons by assumption.
  now rewrite (step_plain replace_s replace_s_cons).
Qed.
End Block.

Lemma sub_ctrl_boundary a s :
  ctrl_pending a = false -> sub_ctrl (a ++ s) = sub_ctrl a ++ sub_ctrl s.
Proof.
  induction a as [a IH] using string_length_ind.
  destruct a as [|c [|x a]]; intros H.
  - reflexivity.
  - cbn in H. cbn [append]. now rewrite sub_ctrl_cons.
  - cbn [append]. rewrite !sub_ctrl_eq.
    cbn [ctrl_pending] in H.
    destruct ((c =? "^")%char && is_ctrl_chr x).
    + rewrite IH by (simpl; lia || assumption). now rewrite append_assoc.
    + change (String x (a ++ s)) with (String x a ++ s).
      now rewrite IH by (simpl; lia || assumption).
Qed.

Lemma is_Ee_not_bs e : is_Ee e = true -> (e =? backslash)%char = false.
Proof.
  unfold is_Ee. intros H. apply orb_true_iff in H.
  destruct H as [H|H]; apply Ascii.eqb_eq in H; subst; reflexivity.
Qed.

Lemma is_Ee_not_caret e : is_Ee e = true -> (e =? "^")%char = false.
Proof.
  unfold is_Ee. intros H. apply orb_true_iff in H.
  destruct H as [H|H]; apply Ascii.eqb_eq in H; subst; reflexivity.
Qed.

Lemma is_octal_plain d : is_octal d = true -> plain (String d EmptyString) = true.
Proof.
  destruct d as [[] [] [] [] [] [] [] []]; intros H; try reflexivity; discriminate H.
Qed.

(** the third to fifth step around an inert block *)
Lemma steps345_block x r a b :
  inert_block x r = true ->
  replace_s (sub_unescape (sub_esc (a ++ String backslash (String x (r ++ b)))))
  = replace_s (sub_unescape (sub_esc a))
    ++ String backslash (String x (r ++ replace_s (sub_unescape (sub_esc b)))).
Proof.
  intros H.
  now rewrite (sub_esc_block x r H), (sub_unescape_block x r H), (replace_s_block x r H).
Qed.

Lemma steps2345_block x r a b :
  inert_block x r = true ->
  replace_s (sub_unescape (sub_esc (sub_esc_digit
    (a ++ String backslash (String x (r ++ b))))))
  = replace_s (sub_unescape (sub_esc (sub_esc_digit a)))
    ++ String backslash (String x
         (r ++ replace_s (sub_unescape (sub_esc (sub_esc_digit b))))).
Proof.
  intros H. rewrite (sub_esc_digit_block x r H). now apply steps345_block.
Qed.

(** an inert block of the source text passes the whole translation *)
Lemma translate_block pre x r post :
  ctrl_pending pre = false -> inert_block x r = true -> (x =? "^")%char = false ->
  translate (pre ++ String backslash (String x (r ++ post)))
  = translate pre ++ String backslash (String x (r ++ translate post)).
Proof.
  intros Hpre Hblock Hx. unfold translate.
  rewrite sub_ctrl_boundary by assumption.
  rewrite !sub_ctrl_cons by (assumption || reflexivity).
  rewrite sub_ctrl_plain by (unfold inert_block in Hblock; now bool_cases).
  now apply steps2345_block.
Qed.

(** ** Control characters *)

Lemma translate_ctrl_chr_code X :
  is_ctrl_chr X = true -> translate_ctrl_chr X = ctrl_code X.
Proof.
  destruct X as [[] [] [] [] [] [] [] []]; intros H;
    try discriminate H; reflexivity.
Qed.

Lemma ctrl_code_block X :
  is_ctrl_chr X = true ->
  exists r, ctrl_code X = String backslash (String "x" r) /\ inert_block "x" r = true.
Proof.
  destruct X as [[] [] [] [] [] [] [] []]; intros H;
    try discriminate H; eexists; split; reflexivity.
Qed.

Lemma ctrl_chr_range X :
  is_ctrl_chr X = true -> (X =? "?")%char = false ->
  (ord "@" <= ord X)%N /\ (ord X - ord "@" < 32)%N.
Proof.
  destruct X as [[] [] [] [] [] [] [] []]; intros H H';
    try discriminate H; try discriminate H'; split; vm_compute; congruence.
Qed.

(** C8, amended: in the translation of a String capability's value, a
    caret followed by a character X of the class of control names
    ([is_ctrl_chr X]), met by the scan of the first step (the caret is not
    itself the name of an escape before it: [ctrl_pending pre = false]), is
    replaced by the escape of its control code:
    [\x7f] for [^?], otherwise [\x] and the two hexadecimal digits of
    [ord(X) - ord('@')], a code below 32; the later steps keep that escape,
    so it stands in the value of the capability between the translations
    of the text before and behind it. *)
Theorem ctrl_escape_translated (pre post : string) (X : ascii) :
  is_ctrl_chr X = true ->
  ctrl_pending pre = false ->
  translate_ctrl_chr X = ctrl_code X
  /\ ((X =? "?")%char = false -> (ord "@" <= ord X)%N /\ (ord X - ord "@" < 32)%N)
  /\ sub_ctrl (pre ++ String "^" (String X post))
     = sub_ctrl pre ++ ctrl_code X ++ sub_ctrl post
  /\ translate (pre ++ String "^" (String X post))
     = translate pre ++ ctrl_code X ++ translate post.
Proof.
  intros HX Hpre.
  assert (Hsub : sub_ctrl (pre ++ String "^" (String X post))
                 = sub_ctrl pre ++ ctrl_code X ++ sub_ctrl post).
  { rewrite sub_ctrl_boundary by assumption.
    rewrite sub_ctrl_eq, HX. cbn [andb Ascii.eqb Bool.eqb].
    now rewrite translate_ctrl_chr_code. }
  split; [now apply translate_ctrl_chr_code|].
  split; [now apply ctrl_chr_range|].
  split; [exact Hsub|].
  unfold translate. rewrite Hsub.
  destruct (ctrl_code_block X HX) as (r & -> & Hr).
  cbn [append]. now apply steps2345_block.
Qed.

Lemma ctrl_escape_translated_witness :
  translate ("ab" ++ String "^" (String "G" "cd")) = "ab\x07cd".
Proof.
  destruct (ctrl_escape_translated "ab" "cd" "G" eq_refl eq_refl) as (_ & _ & _ & H).
  rewrite H. reflexivity.
Defined.

(** Counterexample to C8 as stated for every caret and character: the
    lower-case letter is outside the class of the pattern, so [^a] is left
    as it is and is not turned into the escape of [ord('a') - ord('@')],
    which is 0x21. *)
Lemma caret_outside_class_kept :
  translate "^a" = "^a"
  /\ translate "^a" <> "\x21"
  /\ is_ctrl_chr "a" = false.
Proof. repeat split. discriminate. Qed.

(** ** The ESC escape *)

Lemma translate_ctrl_chr_head x :
  exists r, translate_ctrl_chr x = String backslash r.
Proof.
  unfold translate_ctrl_chr. destruct (x =? "?")%char; eexists; reflexivity.
Qed.

Lemma starts_with_octal_sub_ctrl s :
  starts_with_octal (sub_ctrl s) = starts_with_octal s.
Proof.
  destruct s as [|c [|x t]]; try reflexivity.
  rewrite sub_ctrl_eq.
  destruct (c =? "^")%char eqn:Hc; cbn [andb]; [|reflexivity].
  apply Ascii.eqb_eq in Hc. subst c.
  destruct (is_ctrl_chr x); [|reflexivity].
  destruct (translate_ctrl_chr_head x) as (r & ->). reflexivity.
Qed.

Lemma is_octal_not_caret d : is_octal d = true -> (d =? "^")%char = false.
Proof. intros H. apply is_octal_plain in H. cbn in H. now bool_cases. Qed.

Lemma is_octal_not_bs d : is_octal d = true -> (d =? backslash)%char = false.
Proof. intros H. apply is_octal_plain in H. cbn in H. now bool_cases. Qed.

(** the translation passes an octal digit at the head *)
Lemma translate_octal_cons d s :
  is_octal d = true -> translate (String d s) = String d (translate s).
Proof.
  intros H. unfold translate.
  rewrite sub_ctrl_cons by now apply is_octal_not_caret.
  pose proof (is_octal_not_bs d H) as Hbs.
  now rewrite sub_esc_digit_cons, sub_esc_cons, sub_unescape_cons, replace_s_cons.
Qed.

(** the second step at an ESC escape that no octal digit follows *)
Lemma sub_esc_digit_no_octal e s :
  starts_with_octal s = false ->
  sub_esc_digit (String backslash (String e s))
  = String backslash (sub_esc_digit (String e s)).
Proof.
  intros H. destruct s as [|d t]; [reflexivity|].
  rewrite sub_esc_digit_eq. cbn [starts_with_octal] in H.
  now rewrite H, andb_false_r.
Qed.

(** the ESC escape followed by an octal digit *)
Lemma translate_esc_octal pre e d post :
  is_Ee e = true -> is_octal d = true -> ctrl_pending pre = false ->
  translate (pre ++ String backslash (String e (String d post)))
  = translate pre ++ "\033" ++ quote_split ++ String d (translate post).
Proof.
  intros He Hd Hpre. unfold translate.
  rewrite sub_ctrl_boundary by assumption.
  rewrite !sub_ctrl_cons
    by first [reflexivity | now apply is_Ee_not_caret | now apply is_octal_not_caret].
  rewrite sub_esc_digit_boundary, sub_esc_digit_eq, He, Hd.
  cbn [andb Ascii.eqb Bool.eqb backslash].
  assert (Hblock : inert_block "0" ("33" ++ quote_split ++ String d EmptyString) = true).
  { unfold inert_block. cbn. pose proof (is_octal_plain d Hd) as Hp. cbn in Hp.
    exact Hp. }
  pose proof (steps345_block "0" _ (sub_esc_digit (sub_ctrl pre))
                (sub_esc_digit (sub_ctrl post)) Hblock) as E.
  cbn [append quote_split] in E.
  unfold esc_split. cbn [append quote_split]. exact E.
Qed.

(** the ESC escape followed by anything else *)
Lemma translate_esc_plain pre e post :
  is_Ee e = true -> starts_with_octal post = false -> ctrl_pending pre = false ->
  translate (pre ++ String backslash (String e post))
  = translate pre ++ "\033" ++ translate post.
Proof.
  intros He Hpost Hpre. unfold translate.
  rewrite sub_ctrl_boundary by assumption.
  rewrite !sub_ctrl_cons by first [reflexivity | now apply is_Ee_not_caret].
  rewrite sub_esc_digit_boundary.
  rewrite sub_esc_digit_no_octal by now rewrite starts_with_octal_sub_ctrl.
  rewrite sub_esc_digit_cons by now apply is_Ee_not_bs.
  rewrite sub_esc_boundary, sub_esc_eq, He.
  cbn [andb Ascii.eqb Bool.eqb backslash].
  assert (Hblock : inert_block "0" "33" = true) by reflexivity.
  pose proof (sub_unescape_block "0" "33" Hblock) as E1.
  pose proof (replace_s_block "0" "33" Hblock) as E2.
  cbn [append] in E1, E2 |- *.
  now rewrite E1, E2.
Qed.

(** C5, amended: in the translation of a String capability's value, an
    escape [\E] or [\e] whose backslash has not been taken by a control
    escape before it ([ctrl_pending pre = false]) becomes [\033]; the
    quote, blank, quote that splits
    the literal is put behind it exactly when an octal digit follows the
    escape, and the digit then comes next. *)
Theorem esc_split_iff_octal (pre post : string) (e : ascii) :
  is_Ee e = true ->
  ctrl_pending pre = false ->
  translate (pre ++ String backslash (String e post))
  = translate pre ++ "\033"
    ++ (if starts_with_octal post then quote_split else EmptyString)
    ++ translate post
  /\ (forall d post', post = String d post' -> is_octal d = true ->
      translate (pre ++ String backslash (String e post))
      = translate pre ++ "\033" ++ quote_split ++ String d (translate post')).
Proof.
  intros He Hpre. split.
  - destruct (starts_with_octal post) eqn:Hpost.
    + destruct post as [|d post']; [discriminate Hpost|].
      cbn [starts_with_octal] in Hpost.
      rewrite translate_esc_octal by assumption.
      now rewrite translate_octal_cons.
    + now rewrite translate_esc_plain.
  - intros d post' -> Hd. now apply translate_esc_octal.
Qed.

Lemma esc_split_iff_octal_witness :
  translate ("a" ++ String backslash (String "E" "7b"))
  = "a\033" ++ quote_split ++ "7b"
  /\ translate ("a" ++ String backslash (String "e" "[m")) = "a\033[m".
Proof.
  split.
  - destruct (esc_split_iff_octal "a" "7b" "E" eq_refl eq_refl) as [H _].
    rewrite H. reflexivity.
  - destruct (esc_split_iff_octal "a" "[m" "e" eq_refl eq_refl) as [H _].
    rewrite H. reflexivity.
Defined.

(** Counterexample to C5 as stated for every occurrence of [\E] before
    an octal digit: behind a caret the backslash is the name of the control
    escape [^\], which the first step rewrites; [E7] stays as text and
    neither [\033] nor the split is written. *)
Lemma esc_behind_caret_not_split :
  translate ("^" ++ String backslash (String "E" "7")) = "\x1cE7"
  /\ translate ("^" ++ String backslash (String "E" "7"))
     <> translate "^" ++ "\033" ++ quote_split ++ "7"
  /\ ctrl_pending "^" = true.
Proof. repeat split. discriminate. Qed.

(** ** The unsupported escape *)

(** C9, amended: the constructor of a String capability raises
    NotImplementedError, and yields no capability, when the value holds
    the escape [\l] with a backslash that has not been taken by a control
    escape before it ([ctrl_pending pre = false]). *)
Theorem l_escape_not_implemented (name pre post : string) :
  ctrl_pending pre = false ->
  StringCapability name (pre ++ String backslash (String "l" post))
  = Raise NotImplementedError.
Proof.
  intros Hpre. unfold StringCapability.
  pose proof (translate_block pre "l" EmptyString post Hpre eq_refl eq_refl) as E.
  cbn [append] in E. rewrite E.
  now rewrite search_l_boundary, search_l_eq, orb_true_r.
Qed.

Lemma l_escape_not_implemented_witness :
  StringCapability "bel" ("ab" ++ String backslash (String "l" "cd"))
  = Raise NotImplementedError.
Proof. apply (l_escape_not_implemented "bel" "ab" "cd"). reflexivity. Defined.

(** Counterexample to C9 as stated for every value that holds [\l]:
    behind a caret the backslash is the name of the control escape [^\];
    the constructor returns the capability with the value [\x1cl] and
    raises nothing. *)
Lemma l_behind_caret_accepted :
  StringCapability "s" ("^" ++ String backslash "l") = Ok (StrCap "s" "\x1cl")
  /\ StringCapability "s" ("^" ++ String backslash "l") <> Raise NotImplementedError
  /\ ctrl_pending "^" = true.
Proof. repeat split. discriminate. Qed.

(** ** dict *)

Section DictFacts.
Context {V : Type}.
Implicit Types (d : dict V) (k : string) (v : V).

Lemma dict_in_app k d1 d2 : dict_in k (d1 ++ d2)%list = dict_in k d1 || dict_in k d2.
Proof.
  unfold dict_in. induction d1 as [|[k' v'] d1 IH]; [reflexivity|].
  cbn. destruct (k' =? k)%string; [reflexivity | exact IH].
Qed.

Lemma dict_set_absent d k v : dict_in k d = false -> dict_set d k v = (d ++ [(k, v)])%list.
Proof.
  unfold dict_in. induction d as [|[k' v'] d IH]; [reflexivity|].
  cbn. destruct (k' =? k)%string; [discriminate|].
  intros H. now rewrite IH.
Qed.

Lemma dict_get_set_same d k v : dict_get (dict_set d k v) k = Some v.
Proof.
  induction d as [|[k' v'] d IH]; cbn.
  - now rewrite String.eqb_refl.
  - destruct (k' =? k)%string eqn:E; cbn.
    + now rewrite String.eqb_refl.
    + now rewrite E.
Qed.

Lemma dict_get_set_other d k v k' :
  k' <> k -> dict_get (dict_set d k v) k' = dict_get d k'.
Proof.
  intros Hk. induction d as [|[k0 v0] d IH]; cbn.
  - apply not_eq_sym, String.eqb_neq in Hk. now rewrite Hk.
  - destruct (k0 =? k)%string eqn:E; cbn.
    + apply String.eqb_eq in E. subst k0.
      apply not_eq_sym, String.eqb_neq in Hk. now rewrite Hk.
    + now rewrite IH.
Qed.

Lemma dict_in_set d k v k' :
  dict_in k' (dict_set d k v) = (k =? k')%string || dict_in k' d.
Proof.
  unfold dict_in. destruct (k =? k')%string eqn:E.
  - apply String.eqb_eq in E. subst. now rewrite dict_get_set_same.
  - apply String.eqb_neq in E. rewrite dict_get_set_other by congruence.
    reflexivity.
Qed.
End DictFacts.

(** ** add_capability *)

Lemma add_capability_present frag cap :
  dict_in (cap_name cap) (caps frag) = true ->
  add_capability frag cap = Raise AssertionError.
Proof. intros H. unfold add_capability. now rewrite H. Qed.

Lemma add_capability_absent frag cap :
  dict_in (cap_name cap) (caps frag) = false ->
  add_capability frag cap
  = Ok (with_caps frag (caps frag ++ [(cap_name cap, cap)])%list).
Proof.
  intros H. unfold add_capability. rewrite H. cbn.
  now rewrite dict_set_absent.
Qed.

Lemma add_capability_Ok frag cap frag' :
  add_capability frag cap = Ok frag' ->
  dict_in (cap_name cap) (caps frag) = false
  /\ frag' = with_caps frag (caps frag ++ [(cap_name cap, cap)])%list.
Proof.
  intros H. destruct (dict_in (cap_name cap) (caps frag)) eqn:E.
  - rewrite add_capability_present in H by assumption. discriminate.
  - rewrite add_capability_absent in H by assumption. split; congruence.
Qed.

(** C6: adding a capability whose name the fragment already holds raises
    AssertionError and leaves no changed fragment; adding one whose name is
    absent succeeds, stores it under its name behind the others and keeps
    every other entry; and after a successful addition any capability of
    the same name is refused, the first one staying in place. *)
Theorem add_capability_unique (frag : Fragment) (cap : Capability) :
  (dict_in (cap_name cap) (caps frag) = true ->
   add_capability frag cap = Raise AssertionError)
  /\ (dict_in (cap_name cap) (caps frag) = false ->
      exists frag',
        add_capability frag cap = Ok frag'
        /\ caps frag' = (caps frag ++ [(cap_name cap, cap)])%list
        /\ dict_get (caps frag') (cap_name cap) = Some cap
        /\ forall k, k <> cap_name cap ->
                     dict_get (caps frag') k = dict_get (caps frag) k)
  /\ (forall frag' cap',
        add_capability frag cap = Ok frag' ->
        cap_name cap' = cap_name cap ->
        add_capability frag' cap' = Raise AssertionError
        /\ dict_get (caps frag') (cap_name cap) = Some cap).
Proof.
  split; [apply add_capability_present|]. split.
  - intros H. eexists. split; [now apply add_capability_absent|].
    cbn [caps with_caps]. rewrite <- (dict_set_absent _ _ cap H).
    split; [reflexivity|]. split.
    + apply dict_get_set_same.
    + intros k Hk. now apply dict_get_set_other.
  - intros frag' cap' Hadd Hname.
    apply add_capability_Ok in Hadd. destruct Hadd as [Habs ->].
    cbn [caps with_caps]. rewrite <- (dict_set_absent _ _ cap Habs).
    split.
    + apply add_capability_present. cbn [caps with_caps].
      rewrite Hname, dict_in_set. now rewrite String.eqb_refl.
    + apply dict_get_set_same.
Qed.

Lemma add_capability_unique_witness :
  add_capability (mkFragment "xterm" "X" [("am", BoolCap "am")]) (IntCap "am" 1)
  = Raise AssertionError
  /\ add_capability (mkFragment "xterm" "X" [("am", BoolCap "am")]) (IntCap "cols" 80)
     = Ok (mkFragment "xterm" "X" [("am", BoolCap "am"); ("cols", IntCap "cols" 80)])
  /\ add_capability
       (mkFragment "xterm" "X" [("am", BoolCap "am"); ("cols", IntCap "cols" 80)])
       (StrCap "cols" "x")
     = Raise AssertionError.
Proof.
  split; [|split].
  - destruct (add_capability_unique
                (mkFragment "xterm" "X" [("am", BoolCap "am")]) (IntCap "am" 1))
      as (H & _).
    exact (H eq_refl).
  - destruct (add_capability_unique
                (mkFragment "xterm" "X" [("am", BoolCap "am")]) (IntCap "cols" 80))
      as (_ & H & _).
    destruct (H eq_refl) as (frag' & Hadd & _). reflexivity.
  - destruct (add_capability_unique
                (mkFragment "xterm" "X" [("am", BoolCap "am")]) (IntCap "cols" 80))
      as (_ & _ & H).
    apply (H _ (StrCap "cols" "x") eq_refl eq_refl).
Defined.

(** ** The order of the capabilities *)

Lemma ltb_lt a b : String.ltb a b = true <-> String_as_OT.lt a b.
Proof.
  rewrite <- String_as_OT.cmp_lt. unfold String.ltb, String_as_OT.cmp.
  destruct (String.compare a b); split; congruence.
Qed.

Lemma ltb_irrefl a : String.ltb a a = false.
Proof.
  unfold String.ltb.
  replace (String.compare a a) with Eq; [reflexivity|].
  symmetry. now apply String_as_OT.cmp_eq.
Qed.

Lemma ltb_trans a b c :
  String.ltb a b = true -> String.ltb b c = true -> String.ltb a c = true.
Proof. rewrite !ltb_lt. apply String_as_OT.lt_trans. Qed.

(** not below: equal or above *)
Lemma ltb_false a b : String.ltb a b = false -> a = b \/ String.ltb b a = true.
Proof.
  unfold String.ltb. rewrite (String.compare_antisym b a).
  destruct (String.compare a b) eqn:E; cbn; intros H.
  - left. now apply String.compare_eq_iff.
  - discriminate.
  - now right.
Qed.

Lemma ltb_asym a b : String.ltb a b = true -> String.ltb b a = false.
Proof.
  intros H. destruct (String.ltb b a) eqn:E; [|reflexivity].
  pose proof (ltb_trans _ _ _ H E) as F. now rewrite ltb_irrefl in F.
Qed.

(** [b <= c < a] *)
Lemma ltb_le_lt a b c :
  String.ltb c b = false -> String.ltb c a = true -> String.ltb b a = true.
Proof.
  intros H1 H2. destruct (ltb_false _ _ H1) as [->|H]; [assumption|].
  now apply ltb_trans with c.
Qed.

Lemma insert_sorted_comm a b l :
  cap_name a <> cap_name b ->
  insert_sorted a (insert_sorted b l) = insert_sorted b (insert_sorted a l).
Proof.
  intros Hab. induction l as [|c l IH].
  - cbn. unfold cap_lt.
    destruct (String.ltb (cap_name b) (cap_name a)) eqn:Hba.
    + now rewrite (ltb_asym _ _ Hba).
    + destruct (ltb_false _ _ Hba) as [E|E]; [congruence|]. now rewrite E.
  - cbn [insert_sorted].
    destruct (cap_lt c b) eqn:Hcb, (cap_lt c a) eqn:Hca; cbn [insert_sorted];
      rewrite ?Hcb, ?Hca.
    + now rewrite IH.
    + unfold cap_lt in *. now rewrite (ltb_le_lt _ _ _ Hca Hcb), ?Hcb.
    + unfold cap_lt in *. now rewrite (ltb_le_lt _ _ _ Hcb Hca), ?Hca.
    + unfold cap_lt in *.
      destruct (String.ltb (cap_name b) (cap_name a)) eqn:Hba.
      * now rewrite (ltb_asym _ _ Hba), ?Hca.
      * destruct (ltb_false _ _ Hba) as [E|E]; [congruence|]. now rewrite E, ?Hcb.
Qed.

(** the sorted list does not depend on the order of a list of
    capabilities with distinct names *)
Lemma sorted_Permutation l1 l2 :
  Permutation l1 l2 -> NoDup (map cap_name l1) -> sorted l1 = sorted l2.
Proof.
  induction 1 as [| x l l' _ IH | x y l | l l' l'' H1 IH1 H2 IH2]; intros Hnd.
  - reflexivity.
  - cbn. inversion Hnd; subst. now rewrite IH.
  - cbn. apply insert_sorted_comm.
    cbn in Hnd. inversion Hnd as [|? ? Hin _]; subst.
    intros E. apply Hin. left. congruence.
  - rewrite IH1 by assumption. apply IH2.
    apply Permutation_NoDup with (l := map cap_name l); [|assumption].
    now apply Permutation_map.
Qed.

(** the capabilities of a fragment filled by [add_capability] alone *)
Lemma add_capabilities_Ok l : forall frag frag',
  add_capabilities frag l = Ok frag' ->
  caps frag' = (caps frag ++ map (fun cap => (cap_name cap, cap)) l)%list
  /\ NoDup (map cap_name l)
  /\ forall cap, In cap l -> dict_in (cap_name cap) (caps frag) = false.
Proof.
  induction l as [|cap l IH]; intros frag frag' H.
  - cbn in H. injection H as <-. rewrite app_nil_r.
    repeat split; [constructor | intros ? []].
  - cbn [add_capabilities] in H.
    destruct (add_capability frag cap) as [frag1|e] eqn:Hadd; [|discriminate H].
    cbn [bind] in H. apply add_capability_Ok in Hadd. destruct Hadd as [Habs ->].
    apply IH in H. cbn [caps with_caps] in H. destruct H as (Hcaps & Hnd & Hin).
    split; [rewrite Hcaps, <- app_assoc; reflexivity|]. split.
    + cbn. constructor; [|assumption].
      intros Hc. apply in_map_iff in Hc. destruct Hc as (c' & Hname & Hc').
      specialize (Hin c' Hc'). rewrite dict_in_app in Hin.
      apply orb_false_iff in Hin. destruct Hin as [_ Hin].
      unfold dict_in in Hin. cbn in Hin. rewrite Hname, String.eqb_refl in Hin.
      discriminate.
    + intros c' [<-|Hc']; [assumption|].
      specialize (Hin c' Hc'). rewrite dict_in_app in Hin.
      apply orb_false_iff in Hin. now destruct Hin.
Qed.

Lemma dict_values_of_caps (l : list Capability) :
  dict_values (map (fun cap => (cap_name cap, cap)) l) = l.
Proof.
  unfold dict_values. rewrite map_map. cbn. apply map_id.
Qed.

(** C7: two fragments filled with the same capabilities in any two
    orders serialize to the same text: the output is that of the list
    sorted with [__lt__], which compares the names alone, whatever the
    classes and values; serializing one fragment twice is the case of equal
    orders. *)
Theorem serialize_order_independent
    (name1 description1 name2 description2 : string)
    (l1 l2 : list Capability) (frag1 frag2 : Fragment) :
  add_capabilities (new_Fragment name1 description1) l1 = Ok frag1 ->
  add_capabilities (new_Fragment name2 description2) l2 = Ok frag2 ->
  Permutation l1 l2 ->
  serialize frag1 = serialize frag2
  /\ sorted (dict_values (caps frag1)) = sorted (dict_values (caps frag2))
  /\ (forall a b a' b',
        cap_name a = cap_name a' -> cap_name b = cap_name b' ->
        cap_lt a b = cap_lt a' b')
  /\ (forall a b, cap_lt a b = String.ltb (cap_name a) (cap_name b)).
Proof.
  intros H1 H2 Hperm.
  apply add_capabilities_Ok in H1, H2.
  destruct H1 as (Hc1 & Hnd1 & _), H2 as (Hc2 & _ & _).
  cbn [caps new_Fragment app] in Hc1, Hc2.
  assert (Hs : sorted (dict_values (caps frag1)) = sorted (dict_values (caps frag2))).
  { rewrite Hc1, Hc2, !dict_values_of_caps. now apply sorted_Permutation. }
  split; [unfold serialize; now rewrite Hs|].
  split; [exact Hs|]. split.
  - intros a b a' b' Ha Hb. unfold cap_lt. now rewrite Ha, Hb.
  - reflexivity.
Qed.

Lemma serialize_order_independent_witness :
  serialize (mkFragment "a" "d"
               [("km", BoolCap "km"); ("cols", IntCap "cols" 80); ("bel", StrCap "bel" "\x07")])
  = serialize (mkFragment "b" "e"
               [("bel", StrCap "bel" "\x07"); ("km", BoolCap "km"); ("cols", IntCap "cols" 80)]).
Proof.
  refine (proj1 (serialize_order_independent "a" "d" "b" "e"
            [BoolCap "km"; IntCap "cols" 80; StrCap "bel" "\x07"]
            [StrCap "bel" "\x07"; BoolCap "km"; IntCap "cols" 80]
            _ _ eq_refl eq_refl _)).
  apply Permutation_sym, (Permutation_cons_append [BoolCap "km"; IntCap "cols" 80]).
Defined.

(** ** The quotes of the output *)

(** the replacement puts the quote back for the quote *)
Lemma escape_quote_id (s : string) : escape_quote s = s.
Proof.
  unfold escape_quote. induction s as [|c s IH]; [reflexivity|].
  cbn [replace_chr]. rewrite IH.
  destruct (c =? dquote)%char eqn:E; [|reflexivity].
  apply Ascii.eqb_eq in E. now subst c.
Qed.

(** C4: on the source [xterm|d,am,s=aQb,], Q a quote, the quote of the
    value of [s] reaches the output as it is, with no backslash before it:
    the parts of the capability [s] are [s] and [aQb]. *)
Theorem quote_reaches_output_bare :
  main "xterm" quoted_source "t" "Linux"
  = Ok (written (String.concat separator
          ["Co"; "256"; "RGB"; "8"; "TN"; "t"; "name"; "t";
           "query-os-name"; "Linux"; "s"; "a" ++ String dquote "b"]))
  /\ cap_parts (StrCap "s" ("a" ++ String dquote "b"))
     = ["s"; "a" ++ String dquote "b"]
  /\ bare_quote ("a" ++ String dquote "b") = true.
Proof. repeat split; vm_compute; reflexivity. Qed.

(** ** The patch *)

Section Remove.
Context {V : Type}.
Implicit Types (d : dict V) (k : string).

Lemma dict_in_remove_other d k k' :
  k' <> k -> dict_in k' (dict_remove d k) = dict_in k' d.
Proof.
  intros Hk. unfold dict_in. induction d as [|[k0 v0] d IH]; [reflexivity|].
  cbn. destruct (k0 =? k)%string eqn:E.
  - apply String.eqb_eq in E. subst k0.
    apply not_eq_sym, String.eqb_neq in Hk. now rewrite Hk.
  - cbn. destruct (k0 =? k')%string; [reflexivity | exact IH].
Qed.

Lemma dict_in_remove_same d k :
  unique_keys d = true -> dict_in k (dict_remove d k) = false.
Proof.
  induction d as [|[k0 v0] d IH]; [reflexivity|].
  cbn [unique_keys dict_remove]. intros H. bool_cases.
  destruct (k0 =? k)%string eqn:E.
  - apply String.eqb_eq in E. now subst k0.
  - unfold dict_in in *. cbn. rewrite E. now apply IH.
Qed.

Lemma dict_remove_absent d k : dict_in k d = false -> dict_remove d k = d.
Proof.
  unfold dict_in. induction d as [|[k0 v0] d IH]; [reflexivity|].
  cbn. destruct (k0 =? k)%string; [discriminate|].
  intros H. now rewrite IH.
Qed.

Lemma count_key_absent d k : dict_in k d = false -> count_key k d = 0.
Proof.
  unfold dict_in, count_key. induction d as [|[k0 v0] d IH]; [reflexivity|].
  cbn. destruct (k0 =? k)%string; [discriminate | exact IH].
Qed.

Lemma dict_get_app_absent d1 d2 k :
  dict_in k d1 = false -> dict_get (d1 ++ d2)%list k = dict_get d2 k.
Proof.
  unfold dict_in. induction d1 as [|[k0 v0] d1 IH]; [reflexivity|].
  cbn. destruct (k0 =? k)%string; [discriminate | exact IH].
Qed.

Lemma count_key_app d1 d2 k :
  count_key k (d1 ++ d2)%list = count_key k d1 + count_key k d2.
Proof. unfold count_key. now rewrite filter_app, length_app. Qed.
End Remove.

Lemma with_caps_same frag : with_caps frag (caps frag) = frag.
Proof. now destruct frag. Qed.

Lemma del_RGB_Ok entry :
  del_RGB entry = Ok (with_caps entry (dict_remove (caps entry) "RGB")).
Proof.
  unfold del_RGB, del_capability, dict_del.
  destruct (dict_in "RGB" (caps entry)) eqn:E; cbn; [reflexivity|].
  now rewrite dict_remove_absent, with_caps_same.
Qed.

Lemma translate_plain s : plain s = true -> translate s = s.
Proof.
  intros H. unfold translate.
  rewrite <- (append_nil_r s).
  rewrite sub_ctrl_plain by assumption.
  rewrite (step_plain sub_esc_digit sub_esc_digit_cons) by assumption.
  rewrite (step_plain sub_esc sub_esc_cons) by assumption.
  rewrite (step_plain sub_unescape sub_unescape_cons) by assumption.
  now rewrite (step_plain replace_s replace_s_cons) by assumption.
Qed.

Lemma patch_Ok entry target_entry_name sysname :
  unique_keys (caps entry) = true ->
  dict_in "Co" (caps entry) = false ->
  dict_in "TN" (caps entry) = false ->
  dict_in "name" (caps entry) = false ->
  dict_in "query-os-name" (caps entry) = false ->
  search_l (translate target_entry_name) = false ->
  search_l (translate sysname) = false ->
  patch entry target_entry_name sysname
  = Ok (with_caps entry (dict_remove (caps entry) "RGB"
                         ++ patched_caps target_entry_name sysname)%list).
Proof.
  intros Hu HCo HTN Hname Hos Ht Hs.
  unfold patch, StringCapability. rewrite del_RGB_Ok, Ht, Hs. cbn [bind].
  assert (Hin : forall k, k <> "RGB" -> dict_in k (caps entry) = false ->
                dict_in k (dict_remove (caps entry) "RGB") = false).
  { intros k Hk H. now rewrite dict_in_remove_other. }
  pose proof (dict_in_remove_same (caps entry) "RGB" Hu) as HRGB.
  repeat (rewrite add_capability_absent;
          [cbn [bind with_caps caps frag_name description] |
           cbn [with_caps caps cap_name IntCapability];
           rewrite ?dict_in_app, ?Hin by (assumption || discriminate);
           rewrite ?HRGB; reflexivity]).
  unfold with_caps, patched_caps. cbn [frag_name description caps cap_name IntCapability].
  now rewrite <- !app_assoc.
Qed.

(** a fragment that defines [Co]: the patch cannot add its own *)
Lemma patch_Co_present entry target_entry_name sysname :
  dict_in "Co" (caps entry) = true ->
  patch entry target_entry_name sysname = Raise AssertionError.
Proof.
  intros H. unfold patch. rewrite del_RGB_Ok. cbn [bind].
  rewrite add_capability_present; [reflexivity|].
  cbn [with_caps caps cap_name IntCapability].
  rewrite dict_in_remove_other by discriminate. exact H.
Qed.

(** Counterexample to C3: the fragment that defines [Co] is not patched,
    the insertion of [Co] raises AssertionError. *)
Lemma patch_Co_defined_fails :
  patch (mkFragment "xterm" "X" [("am", BoolCap "am"); ("Co", IntCap "Co" 8)])
        "foot" "Linux"
  = Raise AssertionError
  /\ ~ exists entry',
         patch (mkFragment "xterm" "X" [("am", BoolCap "am"); ("Co", IntCap "Co" 8)])
               "foot" "Linux" = Ok entry'
         /\ dict_get (caps entry') "Co" = Some (IntCap "Co" 256).
Proof.
  split; [reflexivity|].
  intros (entry' & H & _). discriminate H.
Qed.

(** C3, amended: for a fragment with distinct keys that defines none of
    [Co], [TN], [name], [query-os-name], and a target name and system name
    whose translations hold no [\l], the patch succeeds whether or not the
    fragment defined [RGB]; the result holds exactly one [RGB], an Integer
    capability of value 8, exactly one [Co], an Integer capability of value
    256, and exactly one [TN] and [name], String capabilities whose value
    is the translation of the target name, which is the target name itself
    when it has neither backslash nor caret.  The insertion of [Co] is
    subject to the uniqueness check: on a fragment that defines [Co] the
    patch raises AssertionError. *)
Theorem patch_result (entry : Fragment) (target_entry_name sysname : string) :
  unique_keys (caps entry) = true ->
  dict_in "TN" (caps entry) = false ->
  dict_in "name" (caps entry) = false ->
  dict_in "query-os-name" (caps entry) = false ->
  search_l (translate target_entry_name) = false ->
  search_l (translate sysname) = false ->
  (dict_in "Co" (caps entry) = true ->
   patch entry target_entry_name sysname = Raise AssertionError)
  /\ (dict_in "Co" (caps entry) = false ->
      exists entry',
        patch entry target_entry_name sysname = Ok entry'
        /\ dict_get (caps entry') "RGB" = Some (IntCap "RGB" 8)
        /\ count_key "RGB" (caps entry') = 1
        /\ dict_get (caps entry') "Co" = Some (IntCap "Co" 256)
        /\ count_key "Co" (caps entry') = 1
        /\ dict_get (caps entry') "TN" = Some (StrCap "TN" (translate target_entry_name))
        /\ count_key "TN" (caps entry') = 1
        /\ dict_get (caps entry') "name"
           = Some (StrCap "name" (translate target_entry_name))
        /\ count_key "name" (caps entry') = 1
        /\ (plain target_entry_name = true ->
            translate target_entry_name = target_entry_name)).
Proof.
  intros Hu HTN Hname Hos Ht Hs. split; [apply patch_Co_present|].
  intros HCo. eexists. split; [now apply patch_Ok|].
  cbn [caps with_caps].
  pose proof (dict_in_remove_same (caps entry) "RGB" Hu) as HRGB.
  assert (Hin : forall k, k <> "RGB" -> dict_in k (caps entry) = false ->
                dict_in k (dict_remove (caps entry) "RGB") = false).
  { intros k Hk H. now rewrite dict_in_remove_other. }
  assert (Hget : forall k v,
            dict_in k (dict_remove (caps entry) "RGB") = false ->
            dict_get (patched_caps target_entry_name sysname) k = Some v ->
            dict_get (dict_remove (caps entry) "RGB"
                      ++ patched_caps target_entry_name sysname)%list k = Some v).
  { intros k v Hk Hv. now rewrite dict_get_app_absent. }
  assert (Hcount : forall k,
            dict_in k (dict_remove (caps entry) "RGB") = false ->
            count_key k (dict_remove (caps entry) "RGB"
                         ++ patched_caps target_entry_name sysname)%list
            = count_key k (patched_caps target_entry_name sysname)).
  { intros k Hk. now rewrite count_key_app, count_key_absent. }
  repeat split;
    try (apply Hget; [first [exact HRGB | apply Hin; [discriminate | assumption]]
                     | reflexivity]);
    try (rewrite Hcount;
         [reflexivity | first [exact HRGB | apply Hin; [discriminate | assumption]]]).
  apply translate_plain.
Qed.

Lemma patch_result_witness :
  exists entry',
    patch (mkFragment "xterm" "X" [("RGB", IntCap "RGB" 1); ("am", BoolCap "am")])
          "foot" "Linux" = Ok entry'
    /\ dict_get (caps entry') "RGB" = Some (IntCap "RGB" 8)
    /\ dict_get (caps entry') "TN" = Some (StrCap "TN" "foot").
Proof.
  destruct (patch_result
              (mkFragment "xterm" "X" [("RGB", IntCap "RGB" 1); ("am", BoolCap "am")])
              "foot" "Linux" eq_refl eq_refl eq_refl eq_refl eq_refl eq_refl)
    as [_ H].
  destruct (H eq_refl) as (entry' & Hp & HRGB & _ & _ & _ & HTN & _).
  exists entry'. repeat split; assumption.
Defined.

(** ** The expansion of [use] *)

(** a fragment whose first capability is not [use] loses that capability
    and gains nothing, whatever follows it *)
Lemma expand_fragment_first_not_use fragments key frag name cap rest :
  dict_get fragments key = Some frag ->
  caps frag = (name, cap) :: rest ->
  (cap_name cap =? "use")%string = false ->
  cap_name cap = name ->
  expand_fragment fragments key = Ok (dict_set fragments key (with_caps frag rest)).
Proof.
  intros Hget Hcaps Huse Hname. unfold expand_fragment, dict_lookup.
  rewrite Hget. cbn [bind]. rewrite Hcaps. cbn [dict_values map snd].
  rewrite Huse. cbn [bind]. unfold del_capability, dict_del, dict_in.
  rewrite Hcaps, Hname. cbn [dict_get dict_remove].
  now rewrite String.eqb_refl.
Qed.

(** C1: on the source [A|first,a1,use=B,B|second,x,y,] the entry A
    holds [use=B] and B holds [x] and [y]; after the expansion A holds
    neither [x] nor [y] nor its own [a1], and [use] is still there; B has
    lost [x].  The output for A lists [use] with the value [B]. *)
Theorem use_not_expanded :
  parse use_source
  = Ok [("A", mkFragment "A" "first"
                [("a1", BoolCap "a1"); ("use", StrCap "use" "B")]);
        ("B", mkFragment "B" "second" [("x", BoolCap "x"); ("y", BoolCap "y")])]
  /\ (fragments <- parse use_source ;; expand_uses fragments)
     = Ok [("A", mkFragment "A" "first" [("use", StrCap "use" "B")]);
           ("B", mkFragment "B" "second" [("y", BoolCap "y")])]
  /\ main "A" use_source "t" "Linux"
     = Ok (written (String.concat separator
             ["Co"; "256"; "RGB"; "8"; "TN"; "t"; "name"; "t";
              "query-os-name"; "Linux"; "use"; "B"])).
Proof. repeat split; vm_compute; reflexivity. Qed.

(** ** The scan of the text *)

Lemma span_app p s : fst (span p s) ++ snd (span p s) = s.
Proof.
  induction s as [|c s IH]; [reflexivity|].
  cbn. destruct (p c); [|reflexivity].
  destruct (span p s) as [a b]. cbn in *. now rewrite IH.
Qed.

Lemma plus_Some p s a r :
  plus p s = Some (a, r) -> s = a ++ r /\ a <> EmptyString.
Proof.
  unfold plus. pose proof (span_app p s) as H.
  destruct (span p s) as [[|c run] rest]; [discriminate|].
  intros [= <- <-]. split; [now symmetry | discriminate].
Qed.

Lemma plus_reject p c s : p c = false -> plus p (String c s) = None.
Proof. intros H. unfold plus. cbn. now rewrite H. Qed.

Lemma expect_Some c s r : expect c s = Some r -> s = String c r.
Proof.
  destruct s as [|c' s]; [discriminate|]. cbn.
  destruct (c' =? c)%char eqn:E; [|discriminate].
  apply Ascii.eqb_eq in E. now intros [= <-]; subst.
Qed.

Lemma dots_comma_Some s : forall v rest,
  dots_comma s = Some (v, rest) -> s = v ++ String "," rest.
Proof.
  induction s as [|c s IH]; intros v rest; [discriminate|].
  cbn. destruct (c =? ",")%char eqn:E.
  - apply Ascii.eqb_eq in E. subst c. now intros [= <- <-].
  - destruct (is_dot c); [|discriminate].
    destruct (dots_comma s) as [[v' rest']|]; [|discriminate].
    intros [= <- <-]. cbn. now rewrite (IH v' rest').
Qed.

Lemma dots1_comma_Some s v rest :
  dots1_comma s = Some (v, rest) -> s = v ++ String "," rest.
Proof.
  destruct s as [|c s]; [discriminate|]. cbn.
  destruct (is_dot c); [|discriminate].
  destruct (dots_comma s) as [[v' rest']|] eqn:E; [|discriminate].
  intros [= <- <-]. cbn. now rewrite (dots_comma_Some s v' rest').
Qed.

Lemma hex_comma_Some s v rest :
  hex_comma s = Some (v, rest) -> s = v ++ String "," rest.
Proof.
  unfold hex_comma.
  destruct (plus is_hex s) as [[digits r]|] eqn:Hp; [|discriminate].
  destruct (expect "," r) as [rest'|] eqn:He; [|discriminate].
  intros [= <- <-]. apply plus_Some in Hp. apply expect_Some in He.
  destruct Hp as [-> _]. now subst r.
Qed.

Lemma int_val_comma_Some s v rest :
  int_val_comma s = Some (v, rest) -> s = v ++ String "," rest.
Proof.
  unfold int_val_comma.
  destruct (expect "0" s) as [s'|] eqn:E0; [|apply hex_comma_Some].
  destruct (expect "x" s') as [w|] eqn:Ex; [|apply hex_comma_Some].
  destruct (hex_comma w) as [[digits rest']|] eqn:Hh; [|apply hex_comma_Some].
  intros [= <- <-]. apply expect_Some in E0, Ex. apply hex_comma_Some in Hh.
  now subst.
Qed.

(** a match is a non-empty prefix of the text, the rest follows it, and
    one of the four groups is set *)
Lemma match_at_Some s m rest :
  match_at s = Some (m, rest) ->
  has_group m = true /\ exists a, s = a ++ rest /\ a <> EmptyString.
Proof.
  unfold match_at.
  destruct (match_name s) as [r1|] eqn:H1.
  { intros [= ->]. unfold match_name in H1.
    destruct (plus is_entry_name_chr s) as [[n r]|] eqn:Hp; [|discriminate].
    destruct (expect "|" r) as [r'|] eqn:He; [|discriminate].
    destruct (dots1_comma r') as [[v rest']|] eqn:Hd; [|discriminate].
    injection H1 as <- <-. split; [reflexivity|].
    apply plus_Some in Hp. apply expect_Some in He. apply dots1_comma_Some in Hd.
    destruct Hp as [-> Hn]. subst r r'.
    exists (n ++ String "|" (v ++ ",")). split.
    - rewrite !append_assoc. cbn. now rewrite append_assoc.
    - destruct n; [contradiction | discriminate]. }
  destruct (match_bool s) as [r2|] eqn:H2.
  { intros [= ->]. unfold match_bool in H2.
    destruct (plus is_word s) as [[n r]|] eqn:Hp; [|discriminate].
    destruct (expect "," r) as [rest'|] eqn:He; [|discriminate].
    injection H2 as <- <-. split; [reflexivity|].
    apply plus_Some in Hp. apply expect_Some in He.
    destruct Hp as [-> Hn]. subst r.
    exists (n ++ ","). split.
    - now rewrite append_assoc.
    - destruct n; [contradiction | discriminate]. }
  destruct (match_int s) as [r3|] eqn:H3.
  { intros [= ->]. unfold match_int in H3.
    destruct (plus is_word s) as [[n r]|] eqn:Hp; [|discriminate].
    destruct (expect "#" r) as [r'|] eqn:He; [|discriminate].
    destruct (int_val_comma r') as [[v rest']|] eqn:Hd; [|discriminate].
    injection H3 as <- <-. split; [reflexivity|].
    apply plus_Some in Hp. apply expect_Some in He. apply int_val_comma_Some in Hd.
    destruct Hp as [-> Hn]. subst r r'.
    exists (n ++ String "#" (v ++ ",")). split.
    - rewrite !append_assoc. cbn. now rewrite append_assoc.
    - destruct n; [contradiction | discriminate]. }
  intros H4. unfold match_str in H4.
  destruct (plus is_word s) as [[n r]|] eqn:Hp; [|discriminate].
  destruct (expect "=" r) as [r'|] eqn:He; [|discriminate].
  destruct (dots1_comma r') as [[v rest']|] eqn:Hd; [|discriminate].
  injection H4 as <- <-. split; [reflexivity|].
  apply plus_Some in Hp. apply expect_Some in He. apply dots1_comma_Some in Hd.
  destruct Hp as [-> Hn]. subst r r'.
  exists (n ++ String "=" (v ++ ",")). split.
  - rewrite !append_assoc. cbn. now rewrite append_assoc.
  - destruct n; [contradiction | discriminate].
Qed.

Lemma match_at_reject c s :
  is_entry_name_chr c = false -> match_at (String c s) = None.
Proof.
  intros H. assert (Hw : is_word c = false).
  { unfold is_entry_name_chr in H. now bool_cases. }
  unfold match_at, match_name, match_bool, match_int, match_str.
  now rewrite !plus_reject by assumption.
Qed.

Lemma finditer_from_skip a s :
  finditer_from (length a) (a ++ s) = finditer_from 0 s.
Proof. induction a as [|c a IH]; [reflexivity | exact IH]. Qed.

(** behind a match the scan goes on with the rest of the text *)
Lemma finditer_match s m rest :
  match_at s = Some (m, rest) -> finditer s = m :: finditer rest.
Proof.
  intros H. destruct (match_at_Some s m rest H) as (_ & a & -> & Ha).
  destruct a as [|c a]; [contradiction|].
  unfold finditer. cbn [append finditer_from]. cbn [append] in H. rewrite H.
  rewrite length_append, Nat.add_sub. now rewrite finditer_from_skip.
Qed.

(** text in which no match can begin yields nothing *)
Lemma finditer_no_token_start g text :
  no_token_start g = true -> finditer (g ++ text) = finditer text.
Proof.
  induction g as [|c g IH]; intros H; [reflexivity|].
  cbn [no_token_start] in H. bool_cases.
  unfold finditer. cbn [append finditer_from].
  rewrite match_at_reject by assumption. now apply IH.
Qed.

Lemma finditer_from_has_group text : forall skip,
  Forall (fun m => has_group m = true) (finditer_from skip text).
Proof.
  induction text as [|c t IH]; intros skip; [constructor|].
  cbn [finditer_from]. destruct skip as [|k]; [|apply IH].
  destruct (match_at (String c t)) as [[m rest]|] eqn:H; [|apply IH].
  constructor; [|apply IH]. now apply match_at_Some in H.
Qed.

(** a match object with no group set is what the last branch of the loop
    body is for *)
Lemma parse_match_no_group st m :
  has_group m = false -> parse_match st m = Raise AssertionError.
Proof.
  destruct st as [fragments cur]. unfold has_group, parse_match.
  destruct (name_grp m) as [[? ?]|]; [discriminate|].
  destruct (bool_cap m); [discriminate|].
  destruct (int_cap m) as [[? ?]|]; [discriminate|].
  destruct (str_cap m) as [[? ?]|]; [discriminate|]. reflexivity.
Qed.

(** Counterexample to C2: the text holds [!!!,], in which no alternative
    matches at any position, between two capabilities; the run ends with
    its output, in which the capability behind that text is listed. *)
Lemma unmatched_token_not_fatal :
  finditer "!!!," = []
  /\ match_at "!!!,bool1," = None
  /\ main "xterm" "xterm|X,am,!!!,bool1," "myterm" "Linux"
     = Ok (written (String.concat separator
             ["Co"; "256"; "RGB"; "8"; "TN"; "myterm"; "bool1"; EmptyString;
              "name"; "myterm"; "query-os-name"; "Linux"])).
Proof. repeat split; vm_compute; reflexivity. Qed.

(** C2, amended: text that matches none of the four alternatives is
    passed over by the scan and is no error.  Text in which no match can
    begin, put before a text, changes neither the matches nor the result of
    the run (its output or its exception); put behind a match, it is passed
    over before the scan goes on; and every match the scan yields has one
    of the four groups set, so the last branch of the loop body, which
    raises, is not the one taken for it. *)
Theorem unmatched_text_skipped (g text : string) :
  no_token_start g = true ->
  finditer (g ++ text) = finditer text
  /\ (forall source_entry_name target_entry_name sysname,
        main_text (g ++ text) source_entry_name target_entry_name sysname
        = main_text text source_entry_name target_entry_name sysname)
  /\ (forall s m,
        match_at s = Some (m, g ++ text) -> finditer s = m :: finditer text)
  /\ Forall (fun m => has_group m = true) (finditer text).
Proof.
  intros Hg.
  pose proof (finditer_no_token_start g text Hg) as H.
  split; [exact H|]. split; [|split].
  - intros. unfold main_text, parse. now rewrite H.
  - intros s m Hm. rewrite (finditer_match s m _ Hm). now rewrite H.
  - apply finditer_from_has_group.
Qed.

Lemma unmatched_text_skipped_witness :
  main_text ("!!!, " ++ "xterm|X,am,bool1,") "xterm" "myterm" "Linux"
  = main_text "xterm|X,am,bool1," "xterm" "myterm" "Linux"
  /\ finditer "am,!!!, bool1," = [mkMatch None (Some "am") None None;
                                 mkMatch None (Some "bool1") None None].
Proof.
  split.
  - destruct (unmatched_text_skipped "!!!, " "xterm|X,am,bool1," eq_refl)
      as (_ & H & _).
    apply H.
  - destruct (unmatched_text_skipped "!!!, " "bool1," eq_refl) as (_ & _ & H & _).
    rewrite (H "am,!!!, bool1," (mkMatch None (Some "am") None None) eq_refl).
    reflexivity.
Defined.

(** ** The description *)

Lemma dict_lookup_no_descriptions fragments key :
  dict_lookup (no_descriptions fragments) key
  = map_result no_description (dict_lookup fragments key).
Proof.
  unfold dict_lookup, no_descriptions.
  induction fragments as [|[k f] fs IH]; [reflexivity|].
  cbn. destruct (k =? key)%string; [reflexivity | exact IH].
Qed.

Lemma dict_set_no_descriptions fragments key frag :
  dict_set (no_descriptions fragments) key (no_description frag)
  = no_descriptions (dict_set fragments key frag).
Proof.
  unfold no_descriptions.
  induction fragments as [|[k f] fs IH]; [reflexivity|].
  cbn. destruct (k =? key)%string; [reflexivity|]. cbn. now rewrite IH.
Qed.

Lemma dict_keys_no_descriptions fragments :
  dict_keys (no_descriptions fragments) = dict_keys fragments.
Proof. unfold dict_keys, no_descriptions. rewrite map_map. reflexivity. Qed.

Lemma add_capability_no_description frag cap :
  add_capability (no_description frag) cap
  = map_result no_description (add_capability frag cap).
Proof.
  unfold add_capability. cbn [caps no_description].
  destruct (dict_in (cap_name cap) (caps frag)); reflexivity.
Qed.

Lemma add_capabilities_no_description l : forall frag,
  add_capabilities (no_description frag) l
  = map_result no_description (add_capabilities frag l).
Proof.
  induction l as [|cap l IH]; intros frag; [reflexivity|].
  cbn [add_capabilities]. rewrite add_capability_no_description.
  destruct (add_capability frag cap); cbn [bind map_result]; [apply IH | reflexivity].
Qed.

Lemma del_capability_no_description frag name :
  del_capability (no_description frag) name
  = map_result no_description (del_capability frag name).
Proof.
  unfold del_capability. cbn [caps no_description].
  destruct (dict_del (caps frag) name); reflexivity.
Qed.

Lemma expand_fragment_no_descriptions fragments key :
  expand_fragment (no_descriptions fragments) key
  = map_result no_descriptions (expand_fragment fragments key).
Proof.
  unfold expand_fragment. rewrite dict_lookup_no_descriptions.
  destruct (dict_lookup fragments key) as [frag|]; cbn [bind map_result]; [|reflexivity].
  cbn [caps no_description].
  destruct (dict_values (caps frag)) as [|cap rest]; [reflexivity|].
  destruct (cap_name cap =? "use")%string.
  - destruct (assert (is_StringCapability cap)); cbn [bind]; [|reflexivity].
    rewrite dict_lookup_no_descriptions.
    destruct (dict_lookup fragments (str_value cap)) as [use_frag|];
      cbn [bind map_result]; [|reflexivity].
    cbn [caps no_description]. rewrite add_capabilities_no_description.
    destruct (add_capabilities frag (dict_values (caps use_frag))) as [frag1|];
      cbn [bind map_result]; [|reflexivity].
    rewrite del_capability_no_description.
    destruct (del_capability frag1 (cap_name cap)); cbn [bind map_result];
      [|reflexivity].
    now rewrite dict_set_no_descriptions.
  - cbn [bind]. rewrite del_capability_no_description.
    destruct (del_capability frag (cap_name cap)); cbn [bind map_result];
      [|reflexivity].
    now rewrite dict_set_no_descriptions.
Qed.

Lemma expand_keys_no_descriptions keys : forall fragments,
  expand_keys (no_descriptions fragments) keys
  = map_result no_descriptions (expand_keys fragments keys).
Proof.
  induction keys as [|key keys IH]; intros fragments; [reflexivity|].
  cbn [expand_keys]. rewrite expand_fragment_no_descriptions.
  destruct (expand_fragment fragments key); cbn [bind map_result];
    [apply IH | reflexivity].
Qed.

Lemma del_RGB_no_description entry :
  del_RGB (no_description entry) = map_result no_description (del_RGB entry).
Proof. now rewrite !del_RGB_Ok. Qed.

Ltac patch_step :=
  match goal with
  | |- context [add_capability (no_description ?f) ?c] =>
      rewrite (add_capability_no_description f c);
      destruct (add_capability f c); cbn [bind map_result]; try reflexivity
  | |- context [StringCapability ?n ?v] =>
      destruct (StringCapability n v); cbn [bind map_result]; try reflexivity
  end.

Lemma patch_no_description entry target_entry_name sysname :
  patch (no_description entry) target_entry_name sysname
  = map_result no_description (patch entry target_entry_name sysname).
Proof.
  unfold patch. rewrite !del_RGB_Ok. cbn [bind].
  change (with_caps (no_description entry)
            (dict_remove (caps (no_description entry)) "RGB"))
    with (no_description (with_caps entry (dict_remove (caps entry) "RGB"))).
  repeat patch_step.
Qed.

Lemma serialize_no_description entry :
  serialize (no_description entry) = serialize entry.
Proof. reflexivity. Qed.

Lemma generate_no_descriptions fragments source_entry_name target_entry_name sysname :
  generate (no_descriptions fragments) source_entry_name target_entry_name sysname
  = generate fragments source_entry_name target_entry_name sysname.
Proof.
  unfold generate, expand_uses.
  rewrite dict_keys_no_descriptions, expand_keys_no_descriptions.
  destruct (expand_keys fragments (dict_keys fragments)) as [fs|];
    cbn [bind map_result]; [|reflexivity].
  rewrite dict_lookup_no_descriptions.
  destruct (dict_lookup fs source_entry_name) as [entry|];
    cbn [bind map_result]; [|reflexivity].
  rewrite patch_no_description.
  destruct (patch entry target_entry_name sysname); reflexivity.
Qed.

(** C10: two registries that differ in the descriptions of their
    fragments only give the same result from the expansion on: the same
    text written, or the same exception; and the text serialized for an
    entry is a function of its capabilities alone. *)
Theorem description_not_in_output
    (fragments1 fragments2 : dict Fragment)
    (source_entry_name target_entry_name sysname : string) :
  no_descriptions fragments1 = no_descriptions fragments2 ->
  generate fragments1 source_entry_name target_entry_name sysname
  = generate fragments2 source_entry_name target_entry_name sysname
  /\ (forall entry1 entry2,
        caps entry1 = caps entry2 -> serialize entry1 = serialize entry2).
Proof.
  intros H. split.
  - rewrite <- (generate_no_descriptions fragments1), H.
    apply generate_no_descriptions.
  - intros entry1 entry2 Hc. unfold serialize. now rewrite Hc.
Qed.

Lemma description_not_in_output_witness :
  generate [("xterm", mkFragment "xterm" "X terminal emulator"
                        [("am", BoolCap "am"); ("cols", IntCap "cols" 80)])]
           "xterm" "foot" "Linux"
  = generate [("xterm", mkFragment "xterm" "something else"
                          [("am", BoolCap "am"); ("cols", IntCap "cols" 80)])]
             "xterm" "foot" "Linux".
Proof.
  apply (description_not_in_output
           [("xterm", mkFragment "xterm" "X terminal emulator"
                        [("am", BoolCap "am"); ("cols", IntCap "cols" 80)])]
           [("xterm", mkFragment "xterm" "something else"
                        [("am", BoolCap "am"); ("cols", IntCap "cols" 80)])]).
  reflexivity.
Defined.

(** ** The model on sample inputs

    The values are those of the [re] module and of [int] on the same
    inputs. *)

Example finditer_alternatives :
  finditer "a#0x1F,b#0x,c#0b1,d#0X1,"
  = [mkMatch None None (Some ("a", "0x1F")) None;
     mkMatch None (Some "0x") None None;
     mkMatch None None (Some ("c", "0b1")) None;
     mkMatch None (Some "0X1") None None].
Proof. reflexivity. Qed.

Example finditer_lazy_description :
  finditer "x|,foo,bar,"
  = [mkMatch (Some ("x", ",foo")) None None None;
     mkMatch None (Some "bar") None None].
Proof. reflexivity. Qed.

Example finditer_escaped_comma :
  finditer "a+b@c|d e f,k=v\,w,"
  = [mkMatch (Some ("a+b@c", "d e f")) None None None;
     mkMatch None None None (Some ("k", "v\"));
     mkMatch None (Some "w") None None].
Proof. reflexivity. Qed.

Example int_base0_literals :
  map int_base0 ["0x1F"; "15"; "010"; "0b11"; "1f"; "00"; "0x"]
  = [Ok 31%Z; Ok 15%Z; Raise ValueError; Ok 3%Z; Raise ValueError; Ok 0%Z;
     Raise ValueError].
Proof. reflexivity. Qed.

Example translate_steps :
  translate "a^Ab\E7x\E[m\,\s"
  = "a\x01b\033" ++ quote_split ++ "7x\033[m, ".
Proof. reflexivity. Qed.

(** a caret before a character outside the class stays, and a backslash
    before a caret escape does not protect it *)
Example translate_carets : translate "^^A^?^a\^B" = "\x1eA\x7f^a\\x02".
Proof. reflexivity. Qed.

(** the backslash taken by a control escape starts no escape of its own *)
Example translate_ctrl_backslash :
  translate "^\E7" = "\x1cE7"
  /\ StringCapability "s" "^\l" = Ok (StrCap "s" "\x1cl").
Proof. split; reflexivity. Qed.

Example source_lines_comment :
  source_lines ("# comment" ++ String newline ("xterm|X," ++ String newline
                ("  am, " ++ String newline EmptyString)))
  = ["xterm|X,"; "am,"].
Proof. reflexivity. Qed.

(** * Further properties *)

(** ** The comparisons of Capability *)

Lemma compare_refl (a : string) : String.compare a a = Eq.
Proof. now apply String_as_OT.cmp_eq. Qed.

Lemma leb_ltb a b : String.leb a b = negb (String.ltb b a).
Proof.
  unfold String.leb, String.ltb. rewrite (String.compare_antisym a b).
  destruct (String.compare b a); reflexivity.
Qed.

Lemma comparisons_of_compare (a b : Capability) :
  cap_le a b = cap_lt a b || cap_eq a b
  /\ cap_gt a b = cap_lt b a
  /\ cap_ge a b = negb (cap_lt a b)
  /\ ((cap_lt a b = true /\ cap_eq a b = false /\ cap_gt a b = false)
      \/ (cap_lt a b = false /\ cap_eq a b = true /\ cap_gt a b = false)
      \/ (cap_lt a b = false /\ cap_eq a b = false /\ cap_gt a b = true)).
Proof.
  unfold cap_eq, cap_le, cap_gt, cap_ge, cap_lt.
  set (x := cap_name a). set (y := cap_name b).
  assert (Heq : String.eqb x y
                = match String.compare x y with Eq => true | _ => false end).
  { destruct (String.compare x y) eqn:E.
    - apply String.eqb_eq. now apply String.compare_eq_iff.
    - apply String.eqb_neq. intros Hxy. rewrite Hxy, compare_refl in E. discriminate.
    - apply String.eqb_neq. intros Hxy. rewrite Hxy, compare_refl in E. discriminate. }
  rewrite Heq. unfold String.leb, String.ltb.
  rewrite (String.compare_antisym x y).
  destruct (String.compare y x); cbn; intuition.
Qed.

(** X1: the six comparison methods of Capability agree with one another
    and look at the names only: [==] holds exactly for equal names, whatever
    the classes and values, [!=] is its negation, [<=] is [<] or [==], [>]
    is [<] with the operands exchanged, [>=] is the negation of [<], exactly
    one of [<], [==], [>] holds, and [<] is transitive. *)
Theorem capability_comparisons (a b : Capability) :
  (cap_eq a b = true <-> cap_name a = cap_name b)
  /\ cap_ne a b = negb (cap_eq a b)
  /\ cap_le a b = cap_lt a b || cap_eq a b
  /\ cap_gt a b = cap_lt b a
  /\ cap_ge a b = negb (cap_lt a b)
  /\ ((cap_lt a b = true /\ cap_eq a b = false /\ cap_gt a b = false)
      \/ (cap_lt a b = false /\ cap_eq a b = true /\ cap_gt a b = false)
      \/ (cap_lt a b = false /\ cap_eq a b = false /\ cap_gt a b = true))
  /\ (forall c, cap_lt a b = true -> cap_lt b c = true -> cap_lt a c = true).
Proof.
  split; [apply String.eqb_eq|]. split; [reflexivity|].
  destruct (comparisons_of_compare a b) as (H1 & H2 & H3 & H4).
  repeat (split; [assumption|]).
  intros c. unfold cap_lt. apply ltb_trans.
Qed.

(** ** The sorted list *)

Lemma insert_sorted_Permutation x l : Permutation (insert_sorted x l) (x :: l).
Proof.
  induction l as [|c l IH]; [reflexivity|].
  cbn. destruct (cap_lt c x); [|reflexivity].
  rewrite IH. apply perm_swap.
Qed.

Lemma sorted_Permutation_self l : Permutation (sorted l) l.
Proof.
  induction l as [|x l IH]; [reflexivity|].
  cbn. rewrite insert_sorted_Permutation. now constructor.
Qed.

Lemma cap_le_not_lt a b : cap_le a b = negb (cap_lt b a).
Proof. apply leb_ltb. Qed.

Lemma cap_le_trans a b c :
  cap_le a b = true -> cap_le b c = true -> cap_le a c = true.
Proof.
  rewrite !cap_le_not_lt. unfold cap_lt. intros H1 H2.
  apply negb_true_iff in H1, H2. apply negb_true_iff.
  destruct (String.ltb (cap_name c) (cap_name a)) eqn:E; [|reflexivity].
  pose proof (ltb_le_lt _ _ _ H2 E) as F. congruence.
Qed.

Lemma cap_lt_le a b : cap_lt a b = true -> cap_le a b = true.
Proof.
  rewrite cap_le_not_lt. unfold cap_lt. intros H.
  now rewrite (ltb_asym _ _ H).
Qed.

Lemma insert_sorted_StronglySorted x l :
  StronglySorted (fun a b => cap_le a b = true) l ->
  StronglySorted (fun a b => cap_le a b = true) (insert_sorted x l).
Proof.
  induction 1 as [|c l Hs IH Hc]; [repeat constructor|].
  cbn. destruct (cap_lt c x) eqn:E.
  - constructor; [exact IH|].
    apply (Permutation_Forall (Permutation_sym (insert_sorted_Permutation x l))).
    constructor; [now apply cap_lt_le | exact Hc].
  - assert (Hxc : cap_le x c = true) by (rewrite cap_le_not_lt; now rewrite E).
    constructor; [now constructor|].
    constructor; [exact Hxc|].
    eapply Forall_impl; [|exact Hc]. intros y Hy. now apply cap_le_trans with c.
Qed.

Lemma sorted_StronglySorted l :
  StronglySorted (fun a b => cap_le a b = true) (sorted l).
Proof.
  induction l as [|x l IH]; [constructor|].
  cbn. now apply insert_sorted_StronglySorted.
Qed.

Lemma cap_le_distinct_lt a b :
  cap_le a b = true -> cap_name a <> cap_name b -> cap_lt a b = true.
Proof.
  rewrite cap_le_not_lt. unfold cap_lt. intros H Hn.
  apply negb_true_iff in H. destruct (ltb_false _ _ H) as [E|E]; congruence.
Qed.

Lemma StronglySorted_strict l :
  StronglySorted (fun a b => cap_le a b = true) l ->
  NoDup (map cap_name l) ->
  StronglySorted (fun a b => cap_lt a b = true) l.
Proof.
  induction 1 as [|c l Hs IH Hc]; intros Hnd; [constructor|].
  cbn in Hnd. inversion Hnd as [|? ? Hin Hnd']; subst.
  constructor; [now apply IH|].
  rewrite Forall_forall in *. intros y Hy.
  apply cap_le_distinct_lt; [now apply Hc|].
  intros E. apply Hin. rewrite E. now apply in_map.
Qed.

(** X2: [sorted] returns the capabilities it is given, each as often as
    it is given, with the names in ascending order: no name is above a
    later one, and when the names are distinct, as the keys of a fragment
    are, every name is below all later ones. *)
Theorem sorted_ascending (l : list Capability) :
  Permutation (sorted l) l
  /\ StronglySorted (fun a b => cap_le a b = true) (sorted l)
  /\ (NoDup (map cap_name l) ->
      StronglySorted (fun a b => cap_lt a b = true) (sorted l)).
Proof.
  split; [apply sorted_Permutation_self|].
  split; [apply sorted_StronglySorted|].
  intros Hnd. apply StronglySorted_strict; [apply sorted_StronglySorted|].
  apply Permutation_NoDup with (l := map cap_name l); [|assumption].
  apply Permutation_map, Permutation_sym, sorted_Permutation_self.
Qed.

Lemma sorted_ascending_witness :
  StronglySorted (fun a b => cap_lt a b = true)
    (sorted [BoolCap "km"; IntCap "cols" 80; StrCap "bel" "\x07"; IntCap "Co" 256]).
Proof.
  apply (sorted_ascending
           [BoolCap "km"; IntCap "cols" 80; StrCap "bel" "\x07"; IntCap "Co" 256]).
  cbn. repeat constructor; cbn; intuition discriminate.
Defined.

(** ** The translation splits at a backslash *)

Lemma sub_esc_digit_bs_other x s :
  is_Ee x = false ->
  sub_esc_digit (String backslash (String x s))
  = String backslash (sub_esc_digit (String x s)).
Proof.
  intros H. destruct s as [|d t]; [reflexivity|].
  rewrite sub_esc_digit_eq, H. now rewrite andb_false_r.
Qed.

Lemma sub_esc_bs_other x s :
  is_Ee x = false ->
  sub_esc (String backslash (String x s)) = String backslash (sub_esc (String x s)).
Proof. intros H. rewrite sub_esc_eq, H. now rewrite andb_false_r. Qed.

Lemma sub_unescape_bs_other x s :
  is_meta x = false ->
  sub_unescape (String backslash (String x s))
  = String backslash (sub_unescape (String x s)).
Proof. intros H. rewrite sub_unescape_eq, H. now rewrite andb_false_r. Qed.

Lemma replace_s_boundary_other a c s :
  (c =? "s")%char = false ->
  replace_s (a ++ String c s) = replace_s a ++ replace_s (String c s).
Proof.
  intros Hc. induction a as [a IH] using string_length_ind.
  destruct a as [|x [|e a]].
  - reflexivity.
  - cbn [append]. rewrite replace_s_eq, Hc. now rewrite andb_false_r.
  - cbn [append]. rewrite !replace_s_eq.
    destruct ((x =? backslash)%char && (e =? "s")%char).
    + now rewrite IH by (simpl; lia).
    + change (String e (a ++ String c s)) with (String e a ++ String c s).
      now rewrite IH by (simpl; lia).
Qed.

Lemma sub_esc_digit_head s :
  exists w, sub_esc_digit (String backslash s) = String backslash w.
Proof.
  destruct s as [|e [|d t]]; try (eexists; reflexivity).
  rewrite sub_esc_digit_eq.
  destruct ((backslash =? backslash)%char && is_Ee e && is_octal d);
    eexists; reflexivity.
Qed.

Lemma sub_esc_head s : exists w, sub_esc (String backslash s) = String backslash w.
Proof.
  destruct s as [|e t]; [eexists; reflexivity|].
  rewrite sub_esc_eq.
  destruct ((backslash =? backslash)%char && is_Ee e); eexists; reflexivity.
Qed.

Lemma is_meta_not_s x : is_meta x = true -> (x =? "s")%char = false.
Proof.
  unfold is_meta. intros H.
  apply orb_true_iff in H. destruct H as [H|H];
    [apply orb_true_iff in H; destruct H as [H|H]|];
    apply Ascii.eqb_eq in H; subst; reflexivity.
Qed.

Lemma is_meta_not_bs x : is_meta x = true -> (x =? backslash)%char = false.
Proof.
  unfold is_meta. intros H.
  apply orb_true_iff in H. destruct H as [H|H];
    [apply orb_true_iff in H; destruct H as [H|H]|];
    apply Ascii.eqb_eq in H; subst; reflexivity.
Qed.

Lemma sub_unescape_head s :
  exists c t, sub_unescape (String backslash s) = String c t
              /\ (c =? "s")%char = false.
Proof.
  destruct s as [|x t]; [do 2 eexists; split; reflexivity|].
  rewrite sub_unescape_eq. cbn [Ascii.eqb Bool.eqb backslash andb].
  destruct (is_meta x) eqn:Hx; do 2 eexists; split; try reflexivity.
  now apply is_meta_not_s.
Qed.

Lemma translate_at_backslash (pre post : string) :
  ctrl_pending pre = false ->
  translate (pre ++ String backslash post)
  = translate pre ++ translate (String backslash post).
Proof.
  intros Hpre. unfold translate.
  rewrite sub_ctrl_boundary by assumption.
  rewrite (sub_ctrl_cons backslash) by reflexivity.
  rewrite sub_esc_digit_boundary.
  destruct (sub_esc_digit_head (sub_ctrl post)) as [w ->].
  rewrite sub_esc_boundary.
  destruct (sub_esc_head w) as [w' ->].
  rewrite sub_unescape_boundary.
  destruct (sub_unescape_head w') as (c & t & -> & Hc).
  now apply replace_s_boundary_other.
Qed.

(** X3: the translation of a value splits at every backslash that no
    control escape before it has taken: the text before the backslash and
    the text from the backslash on are translated apart.  So a backslash
    always begins a new escape for the translation, the second backslash
    of a doubled one too. *)
Theorem translate_splits_at_backslash (pre post : string) :
  ctrl_pending pre = false ->
  translate (pre ++ String backslash post)
  = translate pre ++ translate (String backslash post).
Proof. apply translate_at_backslash. Qed.

Lemma translate_splits_at_backslash_witness :
  translate ("a\" ++ String backslash "sb") = "a\" ++ " b".
Proof.
  rewrite (translate_splits_at_backslash "a\" "sb" eq_refl). reflexivity.
Defined.

(** ** The escapes one by one *)

Lemma sub_ctrl_caret_kept post :
  starts_with_ctrl post = false ->
  sub_ctrl (String "^" post) = String "^" (sub_ctrl post).
Proof.
  destruct post as [|x t]; [reflexivity|]. cbn [starts_with_ctrl]. intros H.
  rewrite sub_ctrl_eq, H. now rewrite andb_false_r.
Qed.

(** the first three steps at a backslash and a character that is not E
    or e and that the first step keeps *)
Lemma steps123_bs x post :
  is_Ee x = false -> (x =? backslash)%char = false ->
  sub_ctrl (String x post) = String x (sub_ctrl post) ->
  sub_esc (sub_esc_digit (sub_ctrl (String backslash (String x post))))
  = String backslash (String x (sub_esc (sub_esc_digit (sub_ctrl post)))).
Proof.
  intros HE Hbs Hctrl.
  rewrite (sub_ctrl_cons backslash) by reflexivity. rewrite Hctrl.
  rewrite sub_esc_digit_bs_other, sub_esc_digit_cons by assumption.
  now rewrite sub_esc_bs_other, sub_esc_cons by assumption.
Qed.

Lemma translate_bs_s post :
  translate (String backslash (String "s" post)) = String " " (translate post).
Proof.
  unfold translate.
  rewrite steps123_bs by (reflexivity || now apply sub_ctrl_cons).
  rewrite sub_unescape_bs_other, sub_unescape_cons by reflexivity.
  now rewrite replace_s_eq.
Qed.

Lemma translate_bs_meta m post :
  is_meta m = true ->
  ((m =? "^")%char = true -> starts_with_ctrl post = false) ->
  translate (String backslash (String m post)) = String m (translate post).
Proof.
  intros Hm Hcaret. unfold translate.
  assert (HE : is_Ee m = false).
  { unfold is_meta in Hm. apply orb_true_iff in Hm. destruct Hm as [H|H];
      [apply orb_true_iff in H; destruct H as [H|H]|];
      apply Ascii.eqb_eq in H; subst; reflexivity. }
  assert (Hctrl : sub_ctrl (String m post) = String m (sub_ctrl post)).
  { destruct (m =? "^")%char eqn:E.
    - apply Ascii.eqb_eq in E. subst m. now apply sub_ctrl_caret_kept, Hcaret.
    - now apply sub_ctrl_cons. }
  rewrite steps123_bs by (assumption || now apply is_meta_not_bs).
  rewrite sub_unescape_eq, Hm. cbn [Ascii.eqb Bool.eqb backslash andb].
  now rewrite replace_s_cons by now apply is_meta_not_bs.
Qed.

(** X4: where the backslash of the escape has not been taken by a
    control escape before it ([ctrl_pending pre = false]), the escape [\s]
    becomes one blank, and the escapes [\,] and [\:] lose their backslash,
    as [\^] does when no character of the class of control names follows
    it; the text before and behind is translated apart. *)
Theorem escapes_unescaped (pre post : string) (m : ascii) :
  ctrl_pending pre = false ->
  translate (pre ++ String backslash (String "s" post))
  = translate pre ++ String " " (translate post)
  /\ (is_meta m = true ->
      ((m =? "^")%char = true -> starts_with_ctrl post = false) ->
      translate (pre ++ String backslash (String m post))
      = translate pre ++ String m (translate post)).
Proof.
  intros Hpre. split.
  - rewrite translate_at_backslash by assumption.
    now rewrite translate_bs_s.
  - intros Hm Hcaret. rewrite translate_at_backslash by assumption.
    now rewrite translate_bs_meta.
Qed.

Lemma escapes_unescaped_witness :
  translate ("hi" ++ String backslash (String "," "there")) = "hi,there"
  /\ translate ("a" ++ String backslash (String "s" "b")) = "a b".
Proof.
  destruct (escapes_unescaped "hi" "there" "," eq_refl) as [_ H1].
  destruct (escapes_unescaped "a" "b" "," eq_refl) as [H2 _].
  split.
  - rewrite H1; [reflexivity | reflexivity | discriminate].
  - rewrite H2. reflexivity.
Defined.

Lemma is_fall_through_inert x :
  is_fall_through x = true ->
  inert_block x EmptyString = true /\ (x =? "^")%char = false
  /\ (x =? "l")%char = false.
Proof.
  unfold is_fall_through. intros H.
  repeat (apply orb_true_iff in H; destruct H as [H|H]);
    apply Ascii.eqb_eq in H; subst; repeat split.
Qed.

(** X5: where the backslash of the escape has not been taken by a
    control escape before it ([ctrl_pending pre = false]), the escapes
    [\n], [\r], [\t], [\b] and [\f] pass the translation as they are,
    between the translations of the text before and behind them; and a
    value made of plain text and such an escape is accepted by the
    constructor unchanged. *)
Theorem escapes_fall_through (name pre post : string) (x : ascii) :
  is_fall_through x = true ->
  ctrl_pending pre = false ->
  translate (pre ++ String backslash (String x post))
  = translate pre ++ String backslash (String x (translate post))
  /\ (plain pre = true -> plain post = true ->
      StringCapability name (pre ++ String backslash (String x post))
      = Ok (StrCap name (pre ++ String backslash (String x post)))).
Proof.
  intros Hx Hpre. destruct (is_fall_through_inert x Hx) as (Hblock & Hcaret & Hl).
  pose proof (translate_block pre x EmptyString post Hpre Hblock Hcaret) as E.
  cbn [append] in E. split; [exact E|].
  intros Hp Hq. unfold StringCapability. rewrite E.
  rewrite !translate_plain by assumption.
  rewrite search_l_boundary, search_l_eq, Hl.
  cbn [Ascii.eqb Bool.eqb backslash andb orb].
  assert (Hs : forall s, plain s = true -> search_l s = false).
  { induction s as [|c s IH]; [reflexivity|]. cbn [plain]. intros H. bool_cases.
    rewrite search_l_cons by assumption. now apply IH. }
  assert (Hxs : search_l (String x post) = false).
  { rewrite search_l_cons; [now apply Hs|].
    unfold inert_block in Hblock. now bool_cases. }
  now rewrite Hs, Hxs.
Qed.

Lemma escapes_fall_through_witness :
  StringCapability "ind" ("a" ++ String backslash (String "n" "b"))
  = Ok (StrCap "ind" "a\nb").
Proof.
  destruct (escapes_fall_through "ind" "a" "b" "n" eq_refl eq_refl) as [_ H].
  exact (H eq_refl eq_refl).
Defined.

(** X6: a value with neither backslash nor caret is stored as it is, and
    the constructor does not fail on it. *)
Theorem StringCapability_plain (name value : string) :
  plain value = true ->
  StringCapability name value = Ok (StrCap name value).
Proof.
  intros H. unfold StringCapability. rewrite translate_plain by assumption.
  replace (search_l value) with false; [reflexivity|].
  symmetry. induction value as [|c s IH]; [reflexivity|].
  cbn [plain] in H. bool_cases.
  rewrite search_l_cons by assumption. now apply IH.
Qed.

Lemma StringCapability_plain_witness :
  StringCapability "TN" "foot-extra" = Ok (StrCap "TN" "foot-extra").
Proof. apply (StringCapability_plain "TN" "foot-extra"). reflexivity. Defined.

Lemma translate_bs_caret_ctrl X post :
  is_ctrl_chr X = true ->
  translate (String backslash (String "^" (String X post)))
  = String backslash (ctrl_code X ++ translate post).
Proof.
  intros HX. unfold translate.
  rewrite (sub_ctrl_cons backslash) by reflexivity.
  rewrite sub_ctrl_eq, HX. cbn [Ascii.eqb Bool.eqb andb].
  rewrite translate_ctrl_chr_code by assumption.
  destruct (ctrl_code_block X HX) as (r & -> & Hr).
  pose proof (steps2345_block "x" r (String backslash EmptyString)
                (sub_ctrl post) Hr) as E.
  cbn [append] in E |- *. rewrite E. reflexivity.
Qed.

(** X7: a backslash that no control escape before it has taken
    ([ctrl_pending pre = false]) does not protect a caret behind it from the
    first step: when a character X of the class of control names follows
    the caret, the caret and X become the escape of the control code and
    the backslash stays before it. *)
Theorem escaped_caret_translated (pre post : string) (X : ascii) :
  is_ctrl_chr X = true ->
  ctrl_pending pre = false ->
  translate (pre ++ String backslash (String "^" (String X post)))
  = translate pre ++ String backslash (ctrl_code X ++ translate post).
Proof.
  intros HX Hpre.
  rewrite translate_at_backslash by assumption.
  now rewrite translate_bs_caret_ctrl.
Qed.

Lemma escaped_caret_translated_witness :
  translate ("a" ++ String backslash (String "^" (String "B" "c"))) = "a\\x02c".
Proof.
  rewrite (escaped_caret_translated "a" "c" "B" eq_refl eq_refl). reflexivity.
Defined.

(** ** del_capability *)

Lemma dict_get_remove_other {V : Type} (d : dict V) k k' :
  k' <> k -> dict_get (dict_remove d k) k' = dict_get d k'.
Proof.
  intros Hk. induction d as [|[k0 v0] d IH]; [reflexivity|].
  cbn. destruct (k0 =? k)%string eqn:E.
  - apply String.eqb_eq in E. subst k0.
    apply not_eq_sym, String.eqb_neq in Hk. now rewrite Hk.
  - cbn. destruct (k0 =? k')%string; [reflexivity | exact IH].
Qed.

Lemma dict_remove_last {V : Type} (d : dict V) k v :
  dict_in k d = false -> dict_remove (d ++ [(k, v)])%list k = d.
Proof.
  unfold dict_in. induction d as [|[k0 v0] d IH]; cbn.
  - now rewrite String.eqb_refl.
  - destruct (k0 =? k)%string; [discriminate|]. intros H. now rewrite IH.
Qed.

(** X8: [del_capability] raises KeyError for a name the fragment does not
    hold; for a name it holds (the keys being distinct) it returns the
    fragment without that name, every other name keeping its capability;
    and it undoes [add_capability]: deleting the name just added gives the
    fragment back. *)
Theorem del_capability_behaviour (frag : Fragment) (name : string) :
  (dict_in name (caps frag) = false -> del_capability frag name = Raise KeyError)
  /\ (dict_in name (caps frag) = true -> unique_keys (caps frag) = true ->
      exists frag',
        del_capability frag name = Ok frag'
        /\ dict_in name (caps frag') = false
        /\ frag_name frag' = frag_name frag
        /\ description frag' = description frag
        /\ forall k, k <> name -> dict_get (caps frag') k = dict_get (caps frag) k)
  /\ (forall cap frag1,
        add_capability frag cap = Ok frag1 ->
        del_capability frag1 (cap_name cap) = Ok frag).
Proof.
  split; [|split].
  - intros H. unfold del_capability, dict_del. now rewrite H.
  - intros H Hu. unfold del_capability, dict_del. rewrite H. cbn [bind].
    eexists. split; [reflexivity|]. cbn [caps with_caps frag_name description].
    split; [now apply dict_in_remove_same|].
    repeat split. intros k Hk. now apply dict_get_remove_other.
  - intros cap frag1 Hadd. apply add_capability_Ok in Hadd.
    destruct Hadd as [Habs ->].
    unfold del_capability, dict_del. cbn [caps with_caps].
    rewrite dict_in_app. unfold dict_in at 2. cbn [dict_get].
    rewrite String.eqb_refl, orb_true_r. cbn [bind].
    rewrite dict_remove_last by assumption.
    now destruct frag.
Qed.

Lemma del_capability_behaviour_witness :
  del_capability (mkFragment "xterm" "X" [("am", BoolCap "am")]) "RGB"
  = Raise KeyError
  /\ exists frag',
       del_capability
         (mkFragment "xterm" "X" [("am", BoolCap "am"); ("km", BoolCap "km")]) "am"
       = Ok frag'
       /\ dict_in "am" (caps frag') = false.
Proof.
  split.
  - destruct (del_capability_behaviour
                (mkFragment "xterm" "X" [("am", BoolCap "am")]) "RGB") as (H & _).
    exact (H eq_refl).
  - destruct (del_capability_behaviour
                (mkFragment "xterm" "X" [("am", BoolCap "am"); ("km", BoolCap "km")])
                "am") as (_ & H & _).
    destruct (H eq_refl eq_refl) as (frag' & Hdel & Hin & _).
    exists frag'. split; assumption.
Defined.

(** ** What the patch keeps and when it succeeds *)

Lemma StringCapability_Ok name value cap :
  StringCapability name value = Ok cap ->
  search_l (translate value) = false /\ cap = StrCap name (translate value).
Proof.
  unfold StringCapability. destruct (search_l (translate value)); [discriminate|].
  intros [= <-]. now split.
Qed.

Lemma dict_in_single {V : Type} k k' (v : V) :
  dict_in k [(k', v)] = (k' =? k)%string.
Proof. unfold dict_in. cbn. now destruct (k' =? k)%string. Qed.

(** a successful patch has appended the five capabilities behind the
    capabilities of the entry without [RGB] *)
Lemma patch_Ok_inv entry target_entry_name sysname entry' :
  patch entry target_entry_name sysname = Ok entry' ->
  entry' = with_caps entry (dict_remove (caps entry) "RGB"
                            ++ patched_caps target_entry_name sysname)%list
  /\ dict_in "Co" (caps entry) = false
  /\ dict_in "TN" (caps entry) = false
  /\ dict_in "name" (caps entry) = false
  /\ dict_in "RGB" (dict_remove (caps entry) "RGB") = false
  /\ dict_in "query-os-name" (caps entry) = false
  /\ search_l (translate target_entry_name) = false
  /\ search_l (translate sysname) = false.
Proof.
  unfold patch. rewrite del_RGB_Ok. cbn [bind]. intros H.
  destruct (add_capability _ (IntCapability "Co" 256)) as [e1|] eqn:H1;
    [|discriminate H]. cbn [bind] in H.
  destruct (StringCapability "TN" target_entry_name) as [c2|] eqn:S2;
    [|discriminate H]. cbn [bind] in H.
  destruct (add_capability e1 c2) as [e2|] eqn:H2; [|discriminate H].
  cbn [bind] in H.
  destruct (StringCapability "name" target_entry_name) as [c3|] eqn:S3;
    [|discriminate H]. cbn [bind] in H.
  destruct (add_capability e2 c3) as [e3|] eqn:H3; [|discriminate H].
  cbn [bind] in H.
  destruct (add_capability e3 (IntCapability "RGB" 8)) as [e4|] eqn:H4;
    [|discriminate H]. cbn [bind] in H.
  destruct (StringCapability "query-os-name" sysname) as [c5|] eqn:S5;
    [|discriminate H]. cbn [bind] in H.
  apply StringCapability_Ok in S2, S3, S5.
  destruct S2 as [Ht ->], S3 as [_ ->], S5 as [Hs ->].
  apply add_capability_Ok in H1, H2, H3, H4, H.
  destruct H1 as [A1 ->], H2 as [A2 ->], H3 as [A3 ->], H4 as [A4 ->],
           H as [A5 ->].
  cbn [caps with_caps cap_name IntCapability frag_name description] in *.
  repeat rewrite dict_in_app in A2; repeat rewrite dict_in_app in A3;
    repeat rewrite dict_in_app in A4; repeat rewrite dict_in_app in A5.
  repeat rewrite dict_in_single in A2; repeat rewrite dict_in_single in A3;
    repeat rewrite dict_in_single in A4; repeat rewrite dict_in_single in A5.
  cbn [String.eqb Ascii.eqb Bool.eqb] in A2, A3, A4, A5.
  repeat rewrite orb_false_r in A2; repeat rewrite orb_false_r in A3;
    repeat rewrite orb_false_r in A4; repeat rewrite orb_false_r in A5.
  rewrite dict_in_remove_other in A1, A2, A3, A5 by discriminate.
  split.
  - unfold with_caps, patched_caps. cbn [caps frag_name description].
    now rewrite <- !app_assoc.
  - repeat split; assumption.
Qed.

(** X9: on an entry with distinct keys the patch succeeds exactly when
    the entry defines none of [Co], [TN], [name], [query-os-name] and the
    translations of the target name and of the system name hold no [\l];
    and whenever it succeeds the entry keeps its name and description and,
    under every name other than the five the patch deals with, the
    capability it had. *)
Theorem patch_succeeds_iff (entry : Fragment) (target_entry_name sysname : string) :
  unique_keys (caps entry) = true ->
  ((exists entry', patch entry target_entry_name sysname = Ok entry')
   <-> (dict_in "Co" (caps entry) = false
        /\ dict_in "TN" (caps entry) = false
        /\ dict_in "name" (caps entry) = false
        /\ dict_in "query-os-name" (caps entry) = false
        /\ search_l (translate target_entry_name) = false
        /\ search_l (translate sysname) = false))
  /\ (forall entry',
        patch entry target_entry_name sysname = Ok entry' ->
        frag_name entry' = frag_name entry
        /\ description entry' = description entry
        /\ forall k, is_patched_name k = false ->
                     dict_get (caps entry') k = dict_get (caps entry) k).
Proof.
  intros Hu. split; [split|].
  - intros (entry' & H). apply patch_Ok_inv in H. tauto.
  - intros (HCo & HTN & Hname & Hos & Ht & Hs).
    eexists. now apply patch_Ok.
  - intros entry' H. apply patch_Ok_inv in H. destruct H as (-> & _).
    cbn [caps with_caps frag_name description]. repeat split.
    intros k Hk. unfold is_patched_name in Hk. bool_cases.
    assert (Hget : forall d1 d2 : dict Capability,
              dict_get d2 k = None -> dict_get (d1 ++ d2)%list k = dict_get d1 k).
    { intros d1 d2 Hnone. induction d1 as [|[k0 v0] d1 IH]; [exact Hnone|].
      cbn. destruct (k0 =? k)%string; [reflexivity | exact IH]. }
    rewrite Hget.
    + apply dict_get_remove_other. now apply String.eqb_neq.
    + unfold patched_caps. cbn [dict_get].
      repeat match goal with
             | H : (k =? ?a)%string = false |- _ =>
                 rewrite String.eqb_sym in H; rewrite H; clear H
             end.
      reflexivity.
Qed.

Lemma patch_succeeds_iff_witness :
  exists entry',
    patch (mkFragment "xterm" "X" [("RGB", IntCap "RGB" 1); ("am", BoolCap "am")])
          "foot" "Linux" = Ok entry'.
Proof.
  destruct (patch_succeeds_iff
              (mkFragment "xterm" "X" [("RGB", IntCap "RGB" 1); ("am", BoolCap "am")])
              "foot" "Linux" eq_refl) as [[_ H] _].
  apply H. repeat split.
Defined.

(** ** add_capability in a row *)

Lemma fresh_names_app d n cap l :
  fresh_names (d ++ [(n, cap)])%list l
  = fresh_names d l
    && negb (existsb (fun cap' => (cap_name cap' =? n)%string) l).
Proof.
  unfold fresh_names. induction l as [|c l IH]; [reflexivity|].
  cbn [forallb existsb]. rewrite IH, dict_in_app, dict_in_single.
  rewrite (String.eqb_sym n (cap_name c)).
  destruct (dict_in (cap_name c) d), (cap_name c =? n)%string; cbn;
    rewrite ?andb_false_r; try reflexivity.
Qed.

(** the loop of additions succeeds exactly when the names added are
    distinct and new to the fragment; otherwise it raises AssertionError *)
Lemma add_capabilities_char l : forall frag,
  add_capabilities frag l
  = if distinct_names l && fresh_names (caps frag) l
    then Ok (with_caps frag (caps frag ++ entries_of l)%list)
    else Raise AssertionError.
Proof.
  induction l as [|cap l IH]; intros frag.
  - cbn. now rewrite app_nil_r, with_caps_same.
  - cbn [add_capabilities distinct_names fresh_names forallb].
    fold (fresh_names (caps frag) l).
    destruct (dict_in (cap_name cap) (caps frag)) eqn:Hin.
    + rewrite add_capability_present by assumption. cbn.
      now rewrite andb_false_r.
    + rewrite add_capability_absent by assumption. cbn [bind negb andb].
      rewrite IH. cbn [caps with_caps]. rewrite fresh_names_app.
      destruct (existsb _ l), (distinct_names l), (fresh_names (caps frag) l);
        cbn; try reflexivity.
      unfold with_caps. cbn [frag_name description entries_of map].
      now rewrite <- app_assoc.
Qed.

(** ** The expansion of one fragment *)

(** X10: a fragment whose first capability is the String capability
    [use] naming a fragment of the registry receives the capabilities of
    that fragment, as they are at that moment, behind its own, and loses
    [use], provided the names received are distinct and none of them is a
    name of the receiving fragment; the registry is otherwise unchanged. *)
Theorem expand_use_first
    (fragments : dict Fragment) (key target : string)
    (frag use_frag : Fragment) (rest : dict Capability) :
  dict_get fragments key = Some frag ->
  caps frag = ("use", StrCap "use" target) :: rest ->
  dict_get fragments target = Some use_frag ->
  distinct_names (dict_values (caps use_frag)) = true ->
  fresh_names (caps frag) (dict_values (caps use_frag)) = true ->
  expand_fragment fragments key
  = Ok (dict_set fragments key
          (with_caps frag (rest ++ entries_of (dict_values (caps use_frag)))%list)).
Proof.
  intros Hget Hcaps Htarget Hd Hf.
  unfold expand_fragment, dict_lookup. rewrite Hget. cbn [bind].
  rewrite Hcaps. cbn [dict_values map snd cap_name String.eqb Ascii.eqb Bool.eqb].
  cbn [is_StringCapability assert bind str_value]. rewrite Htarget. cbn [bind].
  rewrite add_capabilities_char. fold (dict_values (caps use_frag)).
  rewrite Hd, Hcaps in *. rewrite Hf. cbn [andb bind].
  unfold del_capability, dict_del, dict_in. cbn [caps with_caps app dict_get].
  cbn [String.eqb Ascii.eqb Bool.eqb bind dict_remove]. reflexivity.
Qed.

Lemma expand_use_first_witness :
  expand_fragment
    [("A", mkFragment "A" "first" [("use", StrCap "use" "B"); ("a1", BoolCap "a1")]);
     ("B", mkFragment "B" "second" [("x", BoolCap "x"); ("y", BoolCap "y")])]
    "A"
  = Ok [("A", mkFragment "A" "first"
                [("a1", BoolCap "a1"); ("x", BoolCap "x"); ("y", BoolCap "y")]);
        ("B", mkFragment "B" "second" [("x", BoolCap "x"); ("y", BoolCap "y")])].
Proof.
  apply (expand_use_first
           [("A", mkFragment "A" "first"
                    [("use", StrCap "use" "B"); ("a1", BoolCap "a1")]);
            ("B", mkFragment "B" "second" [("x", BoolCap "x"); ("y", BoolCap "y")])]
           "A" "B"
           (mkFragment "A" "first" [("use", StrCap "use" "B"); ("a1", BoolCap "a1")])
           (mkFragment "B" "second" [("x", BoolCap "x"); ("y", BoolCap "y")])
           [("a1", BoolCap "a1")]); reflexivity.
Defined.

(** X11: the ways the expansion of a fragment whose first capability is
    named [use] fails: AssertionError when that capability is not a String
    capability; KeyError when it names no fragment of the registry;
    AssertionError when the names to be received are not distinct or one of
    them is a name of the receiving fragment, which is the case when the
    fragment names itself and when the fragment named still holds a [use]
    of its own. *)
Theorem expand_use_errors
    (fragments : dict Fragment) (key : string) (frag : Fragment)
    (cap : Capability) (rest : dict Capability) :
  dict_get fragments key = Some frag ->
  caps frag = ("use", cap) :: rest ->
  cap_name cap = "use" ->
  (is_StringCapability cap = false ->
   expand_fragment fragments key = Raise AssertionError)
  /\ (is_StringCapability cap = true ->
      dict_get fragments (str_value cap) = None ->
      expand_fragment fragments key = Raise KeyError)
  /\ (is_StringCapability cap = true ->
      forall use_frag,
        dict_get fragments (str_value cap) = Some use_frag ->
        distinct_names (dict_values (caps use_frag))
        && fresh_names (caps frag) (dict_values (caps use_frag)) = false ->
        expand_fragment fragments key = Raise AssertionError)
  /\ (is_StringCapability cap = true -> str_value cap = key ->
      expand_fragment fragments key = Raise AssertionError)
  /\ (is_StringCapability cap = true ->
      forall use_frag,
        dict_get fragments (str_value cap) = Some use_frag ->
        dict_in "use" (caps use_frag) = true ->
        (forall k c, In (k, c) (caps use_frag) -> cap_name c = k) ->
        expand_fragment fragments key = Raise AssertionError).
Proof.
  intros Hget Hcaps Hname.
  assert (Hbad : is_StringCapability cap = true ->
                 forall use_frag,
                   dict_get fragments (str_value cap) = Some use_frag ->
                   distinct_names (dict_values (caps use_frag))
                   && fresh_names (caps frag) (dict_values (caps use_frag)) = false ->
                   expand_fragment fragments key = Raise AssertionError).
  { intros Hs use_frag Hu Hcond.
    unfold expand_fragment, dict_lookup. rewrite Hget. cbn [bind].
    rewrite Hcaps. cbn [dict_values map snd]. rewrite Hname.
    cbn [String.eqb Ascii.eqb Bool.eqb]. rewrite Hs. cbn [assert bind].
    rewrite Hu. cbn [bind]. rewrite add_capabilities_char.
    fold (dict_values (caps use_frag)). rewrite Hcaps in *. now rewrite Hcond. }
  split; [|split; [|split; [|split]]].
  - intros Hs. unfold expand_fragment, dict_lookup. rewrite Hget. cbn [bind].
    rewrite Hcaps. cbn [dict_values map snd]. rewrite Hname.
    cbn [String.eqb Ascii.eqb Bool.eqb]. now rewrite Hs.
  - intros Hs Hnone. unfold expand_fragment, dict_lookup. rewrite Hget. cbn [bind].
    rewrite Hcaps. cbn [dict_values map snd]. rewrite Hname.
    cbn [String.eqb Ascii.eqb Bool.eqb]. rewrite Hs. cbn [assert bind].
    now rewrite Hnone.
  - exact Hbad.
  - intros Hs Hself. apply (Hbad Hs frag); [now rewrite Hself|].
    rewrite Hcaps. cbn [dict_values map snd fresh_names forallb]. rewrite Hname.
    unfold dict_in. cbn [dict_get String.eqb Ascii.eqb Bool.eqb negb andb].
    now rewrite andb_false_r.
  - intros Hs use_frag Hu Hin Hkeys. apply (Hbad Hs use_frag Hu).
    apply andb_false_iff. right.
    assert (Hex : exists c, In c (dict_values (caps use_frag)) /\ cap_name c = "use").
    { revert Hin Hkeys. unfold dict_in, dict_values.
      induction (caps use_frag) as [|[k c] d IH]; [discriminate|].
      cbn [dict_get]. intros Hin Hkeys.
      destruct (k =? "use")%string eqn:E.
      - apply String.eqb_eq in E. exists c. split; [now left|].
        rewrite (Hkeys k c) by now left. exact E.
      - destruct IH as (c' & Hc' & Hn'); [assumption | |].
        + intros k' c0 H0. apply Hkeys. now right.
        + exists c'. split; [now right | assumption]. }
    destruct Hex as (c & Hc & Hn).
    unfold fresh_names.
    destruct (forallb _ (dict_values (caps use_frag))) eqn:F; [|reflexivity].
    rewrite forallb_forall in F. specialize (F c Hc).
    rewrite Hn, Hcaps in F. unfold dict_in in F. cbn in F. discriminate.
Qed.

Lemma expand_use_errors_witness :
  expand_fragment
    [("A", mkFragment "A" "first" [("use", StrCap "use" "A")])] "A"
  = Raise AssertionError
  /\ expand_fragment
       [("A", mkFragment "A" "first" [("use", StrCap "use" "B")])] "A"
     = Raise KeyError.
Proof.
  destruct (expand_use_errors
              [("A", mkFragment "A" "first" [("use", StrCap "use" "A")])] "A"
              (mkFragment "A" "first" [("use", StrCap "use" "A")])
              (StrCap "use" "A") [] eq_refl eq_refl eq_refl)
    as (_ & _ & _ & H1 & _).
  destruct (expand_use_errors
              [("A", mkFragment "A" "first" [("use", StrCap "use" "B")])] "A"
              (mkFragment "A" "first" [("use", StrCap "use" "B")])
              (StrCap "use" "B") [] eq_refl eq_refl eq_refl)
    as (_ & H2 & _).
  split; [exact (H1 eq_refl eq_refl) | exact (H2 eq_refl eq_refl)].
Defined.

(** ** What the expansion keeps *)

Lemma dict_in_keys {V W : Type} (d : dict V) (d' : dict W) k :
  dict_keys d = dict_keys d' -> dict_in k d = dict_in k d'.
Proof.
  unfold dict_in. revert d'.
  induction d as [|[k0 v0] d IH]; intros [|[k1 v1] d'] H; try discriminate H;
    [reflexivity|].
  cbn in H. injection H as <- H. cbn.
  destruct (k0 =? k)%string; [reflexivity | now apply IH].
Qed.

Lemma unique_keys_keys {V W : Type} (d : dict V) (d' : dict W) :
  dict_keys d = dict_keys d' -> unique_keys d = unique_keys d'.
Proof.
  revert d'.
  induction d as [|[k0 v0] d IH]; intros [|[k1 v1] d'] H; try discriminate H;
    [reflexivity|].
  cbn in H. injection H as <- H. cbn.
  now rewrite (dict_in_keys d d' k0 H), (IH d' H).
Qed.

Lemma heads_keys fragments : map fst (heads fragments) = dict_keys fragments.
Proof. unfold heads, dict_keys. rewrite map_map. reflexivity. Qed.

Lemma heads_dict_set fragments key frag frag' :
  dict_get fragments key = Some frag ->
  frag_name frag' = frag_name frag ->
  description frag' = description frag ->
  heads (dict_set fragments key frag') = heads fragments.
Proof.
  intros Hget Hn Hd. unfold heads.
  induction fragments as [|[k f] fs IH]; [discriminate|].
  cbn in Hget |- *. destruct (k =? key)%string eqn:E.
  - injection Hget as ->. apply String.eqb_eq in E. subst k. cbn.
    now rewrite Hn, Hd.
  - cbn. now rewrite IH.
Qed.

Lemma add_capabilities_head l frag frag' :
  add_capabilities frag l = Ok frag' ->
  frag_name frag' = frag_name frag /\ description frag' = description frag.
Proof.
  rewrite add_capabilities_char.
  destruct (distinct_names l && fresh_names (caps frag) l); [|discriminate].
  intros [= <-]. now split.
Qed.

Lemma del_capability_head frag name frag' :
  del_capability frag name = Ok frag' ->
  frag_name frag' = frag_name frag /\ description frag' = description frag.
Proof.
  unfold del_capability. destruct (dict_del (caps frag) name); [|discriminate].
  cbn. intros [= <-]. now split.
Qed.

Lemma dict_lookup_Ok {V : Type} (d : dict V) k v :
  dict_lookup d k = Ok v -> dict_get d k = Some v.
Proof. unfold dict_lookup. destruct (dict_get d k); [|discriminate]. now intros [= ->]. Qed.

Lemma expand_fragment_heads fragments key fragments' :
  expand_fragment fragments key = Ok fragments' ->
  heads fragments' = heads fragments.
Proof.
  unfold expand_fragment.
  destruct (dict_lookup fragments key) as [frag|] eqn:Hl; [|discriminate].
  apply dict_lookup_Ok in Hl. cbn [bind].
  destruct (dict_values (caps frag)) as [|cap rest]; [now intros [= <-]|].
  destruct (cap_name cap =? "use")%string.
  - destruct (assert (is_StringCapability cap)); [|discriminate]. cbn [bind].
    destruct (dict_lookup fragments (str_value cap)) as [use_frag|]; [|discriminate].
    cbn [bind].
    destruct (add_capabilities frag (dict_values (caps use_frag))) as [frag1|] eqn:Ha;
      [|discriminate]. cbn [bind].
    destruct (del_capability frag1 (cap_name cap)) as [frag2|] eqn:Hd;
      [|discriminate]. cbn [bind].
    intros [= <-]. apply add_capabilities_head in Ha. apply del_capability_head in Hd.
    apply heads_dict_set with frag; [assumption | |]; destruct Ha, Hd; congruence.
  - cbn [bind].
    destruct (del_capability frag (cap_name cap)) as [frag2|] eqn:Hd; [|discriminate].
    cbn [bind]. intros [= <-]. apply del_capability_head in Hd.
    now apply heads_dict_set with frag.
Qed.

Lemma expand_keys_heads keys : forall fragments fragments',
  expand_keys fragments keys = Ok fragments' ->
  heads fragments' = heads fragments.
Proof.
  induction keys as [|key keys IH]; intros fragments fragments'.
  - now intros [= <-].
  - cbn [expand_keys].
    destruct (expand_fragment fragments key) as [fs1|] eqn:H1; [|discriminate].
    cbn [bind]. intros H. apply IH in H. apply expand_fragment_heads in H1.
    congruence.
Qed.

Lemma expand_uses_dict_in fragments fragments' :
  expand_uses fragments = Ok fragments' ->
  forall k, dict_in k fragments' = dict_in k fragments.
Proof.
  intros H k. apply expand_keys_heads in H.
  apply dict_in_keys. now rewrite <- !heads_keys, H.
Qed.

(** X12: the expansion changes capabilities only: when it succeeds the
    registry holds the same keys in the same order, and under every key a
    fragment with the name and description it had; no fragment is added,
    removed, renamed or moved. *)
Theorem expand_uses_keeps_fragments (fragments fragments' : dict Fragment) :
  expand_uses fragments = Ok fragments' ->
  heads fragments' = heads fragments
  /\ dict_keys fragments' = dict_keys fragments
  /\ forall k, dict_in k fragments' = dict_in k fragments.
Proof.
  intros H. apply expand_keys_heads in H.
  assert (Hk : dict_keys fragments' = dict_keys fragments).
  { now rewrite <- !heads_keys, H. }
  repeat split; try assumption.
  intros k. now apply dict_in_keys.
Qed.

Lemma expand_uses_keeps_fragments_witness :
  dict_keys
    [("A", mkFragment "A" "first"
             [("a1", BoolCap "a1"); ("x", BoolCap "x"); ("y", BoolCap "y")]);
     ("B", mkFragment "B" "second" [("y", BoolCap "y")])]
  = dict_keys
      [("A", mkFragment "A" "first"
               [("use", StrCap "use" "B"); ("a1", BoolCap "a1")]);
       ("B", mkFragment "B" "second" [("x", BoolCap "x"); ("y", BoolCap "y")])].
Proof.
  apply (expand_uses_keeps_fragments
           [("A", mkFragment "A" "first"
                    [("use", StrCap "use" "B"); ("a1", BoolCap "a1")]);
            ("B", mkFragment "B" "second" [("x", BoolCap "x"); ("y", BoolCap "y")])]
           [("A", mkFragment "A" "first"
                    [("a1", BoolCap "a1"); ("x", BoolCap "x"); ("y", BoolCap "y")]);
            ("B", mkFragment "B" "second" [("y", BoolCap "y")])]).
  reflexivity.
Defined.

(** X13: when the selected entry name is no key of the registry, nothing
    is written: the run from the registry on raises KeyError if the
    expansion succeeds, and the exception of the expansion otherwise. *)
Theorem generate_missing_entry
    (fragments : dict Fragment) (source_entry_name target_entry_name sysname : string) :
  dict_in source_entry_name fragments = false ->
  (forall out,
     generate fragments source_entry_name target_entry_name sysname <> Ok out)
  /\ (forall fragments',
        expand_uses fragments = Ok fragments' ->
        generate fragments source_entry_name target_entry_name sysname
        = Raise KeyError).
Proof.
  intros Hin.
  assert (H2 : forall fragments',
             expand_uses fragments = Ok fragments' ->
             generate fragments source_entry_name target_entry_name sysname
             = Raise KeyError).
  { intros fragments' H. unfold generate. rewrite H. cbn [bind].
    pose proof (expand_uses_dict_in fragments fragments' H) as Hk.
    clear H. rename Hk into H.
    unfold dict_lookup. rewrite <- (H source_entry_name) in Hin.
    unfold dict_in in Hin.
    destruct (dict_get fragments' source_entry_name); [discriminate | reflexivity]. }
  split; [|exact H2].
  intros out. destruct (expand_uses fragments) as [fragments'|e] eqn:H.
  - rewrite (H2 fragments' eq_refl). discriminate.
  - unfold generate. rewrite H. discriminate.
Qed.

Lemma generate_missing_entry_witness :
  generate [("xterm", mkFragment "xterm" "X" [("am", BoolCap "am")])]
           "foot" "foot" "Linux"
  = Raise KeyError.
Proof.
  destruct (generate_missing_entry
              [("xterm", mkFragment "xterm" "X" [("am", BoolCap "am")])]
              "foot" "foot" "Linux" eq_refl) as [_ H].
  apply (H [("xterm", mkFragment "xterm" "X" [])]). reflexivity.
Defined.

(** ** The expansion where no fragment begins with [use] *)

Lemma unique_keys_app_mid {V : Type} (d1 d2 : dict V) k v :
  unique_keys (d1 ++ (k, v) :: d2)%list = true -> dict_in k d1 = false.
Proof.
  induction d1 as [|[k0 v0] d1 IH]; [reflexivity|].
  cbn [app unique_keys]. intros H. bool_cases.
  rewrite dict_in_app in H. apply orb_false_iff in H. destruct H as [_ H].
  unfold dict_in in *. cbn [dict_get] in *.
  destruct (k0 =? k)%string eqn:E.
  - apply String.eqb_eq in E. subst k0. now rewrite String.eqb_refl in H.
  - now apply IH.
Qed.

Lemma dict_get_app_mid {V : Type} (d1 d2 : dict V) k v :
  dict_in k d1 = false -> dict_get (d1 ++ (k, v) :: d2)%list k = Some v.
Proof.
  intros H. rewrite dict_get_app_absent by assumption.
  cbn. now rewrite String.eqb_refl.
Qed.

Lemma dict_set_app_mid {V : Type} (d1 d2 : dict V) k v v' :
  dict_in k d1 = false ->
  dict_set (d1 ++ (k, v) :: d2)%list k v' = (d1 ++ (k, v') :: d2)%list.
Proof.
  unfold dict_in. induction d1 as [|[k0 v0] d1 IH]; cbn.
  - now rewrite String.eqb_refl.
  - destruct (k0 =? k)%string; [discriminate|]. intros H. now rewrite IH.
Qed.

Lemma expand_fragment_drop_first done k frag rest :
  dict_in k done = false ->
  first_not_use frag = true ->
  expand_fragment (done ++ (k, frag) :: rest)%list k
  = Ok (done ++ (k, drop_first frag) :: rest)%list.
Proof.
  intros Hk Hf. unfold first_not_use in Hf.
  destruct (caps frag) as [|[n cap] cs] eqn:Hcaps.
  - unfold expand_fragment, dict_lookup. rewrite dict_get_app_mid by assumption.
    cbn [bind]. rewrite Hcaps. cbn [dict_values map].
    unfold drop_first. rewrite Hcaps. cbn [tl]. rewrite <- Hcaps.
    now rewrite with_caps_same.
  - bool_cases. apply String.eqb_eq in H.
    rewrite (expand_fragment_first_not_use _ k frag n cap cs);
      try assumption; [|now apply dict_get_app_mid].
    rewrite dict_set_app_mid by assumption.
    unfold drop_first. now rewrite Hcaps.
Qed.

Lemma expand_keys_drop_first rest : forall done,
  unique_keys (done ++ rest)%list = true ->
  forallb (fun kv => first_not_use (snd kv)) rest = true ->
  expand_keys (done ++ rest)%list (dict_keys rest)
  = Ok (done ++ map (fun kv => (fst kv, drop_first (snd kv))) rest)%list.
Proof.
  induction rest as [|[k frag] rest IH]; intros done Hu Hf; [reflexivity|].
  cbn [forallb snd] in Hf. bool_cases.
  cbn [dict_keys map fst expand_keys].
  rewrite expand_fragment_drop_first;
    [|now apply unique_keys_app_mid in Hu | assumption].
  cbn [bind snd].
  change (done ++ (k, drop_first frag) :: rest)%list
    with (done ++ [(k, drop_first frag)] ++ rest)%list.
  rewrite app_assoc. fold (dict_keys rest). rewrite IH; [|  | assumption].
  - now rewrite <- app_assoc.
  - rewrite <- Hu. apply unique_keys_keys. unfold dict_keys.
    rewrite <- app_assoc, !map_app. reflexivity.
Qed.

(** X14: in a registry with distinct keys where no fragment begins with
    a capability named [use] (each first capability stored under its name),
    the expansion succeeds and takes the first capability from every
    fragment that has one, leaving everything else as it is. *)
Theorem expand_uses_drops_first (fragments : dict Fragment) :
  unique_keys fragments = true ->
  forallb (fun kv => first_not_use (snd kv)) fragments = true ->
  expand_uses fragments
  = Ok (map (fun kv => (fst kv, drop_first (snd kv))) fragments).
Proof.
  intros Hu Hf. unfold expand_uses.
  apply (expand_keys_drop_first fragments []); assumption.
Qed.

Lemma expand_uses_drops_first_witness :
  expand_uses
    [("xterm", mkFragment "xterm" "X" [("am", BoolCap "am"); ("km", BoolCap "km")]);
     ("vt100", mkFragment "vt100" "V" [])]
  = Ok [("xterm", mkFragment "xterm" "X" [("km", BoolCap "km")]);
        ("vt100", mkFragment "vt100" "V" [])].
Proof.
  apply (expand_uses_drops_first
           [("xterm", mkFragment "xterm" "X"
                        [("am", BoolCap "am"); ("km", BoolCap "km")]);
            ("vt100", mkFragment "vt100" "V" [])]); reflexivity.
Defined.

(** ** The registry the parse loop builds *)

Lemma unique_keys_snoc {V : Type} (d : dict V) k v :
  unique_keys d = true -> dict_in k d = false ->
  unique_keys (d ++ [(k, v)])%list = true.
Proof.
  induction d as [|[k0 v0] d IH]; [reflexivity|].
  cbn [unique_keys app]. intros Hu Hk. bool_cases.
  unfold dict_in in Hk. cbn [dict_get] in Hk.
  destruct (k0 =? k)%string eqn:E; [discriminate|].
  rewrite dict_in_app, dict_in_single, String.eqb_sym, E, H.
  cbn. apply IH; [assumption|]. unfold dict_in. exact Hk.
Qed.

Lemma dict_keys_set_present {V : Type} (d : dict V) k v :
  dict_in k d = true -> dict_keys (dict_set d k v) = dict_keys d.
Proof.
  unfold dict_in, dict_keys. induction d as [|[k0 v0] d IH]; [discriminate|].
  cbn. destruct (k0 =? k)%string eqn:E.
  - apply String.eqb_eq in E. now subst.
  - intros H. cbn. now rewrite IH.
Qed.

Lemma unique_keys_set {V : Type} (d : dict V) k v :
  unique_keys d = true -> unique_keys (dict_set d k v) = true.
Proof.
  intros Hu. destruct (dict_in k d) eqn:E.
  - rewrite <- Hu. apply unique_keys_keys. now apply dict_keys_set_present.
  - rewrite dict_set_absent by assumption. now apply unique_keys_snoc.
Qed.

Lemma forallb_dict_set {V : Type} (P : string * V -> bool) (d : dict V) k v :
  forallb P d = true -> P (k, v) = true -> forallb P (dict_set d k v) = true.
Proof.
  intros Hd Hv. induction d as [|[k0 v0] d IH]; cbn.
  - now rewrite Hv.
  - cbn in Hd. bool_cases. destruct (k0 =? k)%string; cbn.
    + now rewrite Hv.
    + rewrite H. now apply IH.
Qed.

Lemma forallb_dict_get {V : Type} (P : string * V -> bool) (d : dict V) k v :
  forallb P d = true -> dict_get d k = Some v -> P (k, v) = true.
Proof.
  induction d as [|[k0 v0] d IH]; [discriminate|].
  cbn. intros Hd. bool_cases. destruct (k0 =? k)%string eqn:E.
  - apply String.eqb_eq in E. subst k0. now intros [= <-].
  - now apply IH.
Qed.

Lemma add_capability_fragment_ok key frag cap frag' :
  fragment_ok key frag = true ->
  add_capability frag cap = Ok frag' ->
  fragment_ok key frag' = true.
Proof.
  unfold fragment_ok. intros H Hadd. bool_cases.
  apply add_capability_Ok in Hadd. destruct Hadd as [Habs ->].
  cbn [frag_name caps with_caps]. rewrite H.
  rewrite unique_keys_snoc by assumption.
  unfold keys_are_names in *. rewrite forallb_app, H0. cbn.
  now rewrite String.eqb_refl.
Qed.

(** a capability added to the current fragment keeps the registry in
    order and its keys in place *)
Lemma on_fragment_add_ok fragments key cap fragments' :
  registry_ok fragments = true ->
  on_fragment fragments key (fun frag => add_capability frag cap) = Ok fragments' ->
  registry_ok fragments' = true
  /\ dict_keys fragments' = dict_keys fragments.
Proof.
  unfold registry_ok, on_fragment. intros Hr H. bool_cases.
  destruct (dict_lookup fragments key) as [frag|] eqn:Hl; [|discriminate H].
  apply dict_lookup_Ok in Hl. cbn [bind] in H.
  destruct (add_capability frag cap) as [frag'|] eqn:Hadd; [|discriminate H].
  cbn [bind] in H. injection H as <-.
  assert (Hin : dict_in key fragments = true).
  { unfold dict_in. now rewrite Hl. }
  split; [|now apply dict_keys_set_present].
  rewrite unique_keys_set by assumption.
  apply forallb_dict_set; [assumption|]. cbn [fst snd].
  apply add_capability_fragment_ok with frag cap; [|assumption].
  exact (forallb_dict_get _ _ _ _ H1 Hl).
Qed.

Lemma header_names_app ms1 ms2 :
  header_names (ms1 ++ ms2)%list = (header_names ms1 ++ header_names ms2)%list.
Proof.
  induction ms1 as [|m ms1 IH]; [reflexivity|].
  cbn. destruct (name_grp m) as [[n d]|]; cbn; now rewrite IH.
Qed.

(** the invariant of the loop over the matches *)
Lemma parse_match_ok st m st' :
  registry_ok (fst st) = true -> current_ok st = true ->
  parse_match st m = Ok st' ->
  registry_ok (fst st') = true /\ current_ok st' = true
  /\ dict_keys (fst st') = (dict_keys (fst st) ++ header_names [m])%list.
Proof.
  destruct st as [fragments cur]. cbn [fst snd]. intros Hr Hc.
  unfold parse_match. cbn [header_names].
  destruct (name_grp m) as [[name desc]|].
  - destruct (dict_in name fragments) eqn:Hin; [discriminate|].
    cbn [negb assert bind]. intros [= <-]. cbn [fst snd].
    unfold registry_ok in *. bool_cases. split; [|split].
    + rewrite unique_keys_set by assumption.
      apply forallb_dict_set; [assumption|].
      cbn. unfold fragment_ok. cbn. now rewrite String.eqb_refl.
    + unfold current_ok. cbn [fst snd]. rewrite dict_in_set.
      now rewrite String.eqb_refl.
    + rewrite dict_set_absent by assumption. unfold dict_keys.
      now rewrite map_app.
  - assert (Hcap : forall cap st1,
              (cur1 <- assert_not_None cur ;;
               fragments' <- on_fragment fragments cur1
                               (fun frag => add_capability frag cap) ;;
               Ok (fragments', cur)) = Ok st1 ->
              registry_ok (fst st1) = true /\ current_ok st1 = true
              /\ dict_keys (fst st1) = (dict_keys fragments ++ [])%list).
    { intros cap st1. destruct cur as [key|]; [|discriminate]. cbn [assert_not_None bind].
      destruct (on_fragment fragments key _) as [fs1|] eqn:Hon; [|discriminate].
      cbn [bind]. intros [= <-]. cbn [fst snd].
      destruct (on_fragment_add_ok _ _ _ _ Hr Hon) as [Hr1 Hk1].
      split; [assumption|]. split.
      - unfold current_ok in *. cbn [fst snd] in *.
        rewrite <- Hc. now apply dict_in_keys.
      - now rewrite app_nil_r. }
    destruct (bool_cap m) as [name|]; [apply Hcap|].
    destruct (int_cap m) as [[name int_val]|].
    { destruct (int_base0 int_val) as [v|]; [|discriminate]. cbn [bind]. apply Hcap. }
    destruct (str_cap m) as [[name str_value]|]; [|discriminate].
    destruct cur as [key|]; [|discriminate]. cbn [assert_not_None bind].
    destruct (StringCapability name str_value) as [cap|]; [|discriminate].
    cbn [bind]. apply (Hcap cap).
Qed.

Lemma parse_matches_ok ms : forall st st',
  registry_ok (fst st) = true -> current_ok st = true ->
  parse_matches st ms = Ok st' ->
  registry_ok (fst st') = true /\ current_ok st' = true
  /\ dict_keys (fst st') = (dict_keys (fst st) ++ header_names ms)%list.
Proof.
  induction ms as [|m ms IH]; intros st st' Hr Hc.
  - cbn. intros [= <-]. now rewrite app_nil_r.
  - cbn [parse_matches].
    destruct (parse_match st m) as [st1|] eqn:H1; [|discriminate]. cbn [bind].
    intros H. destruct (parse_match_ok _ _ _ Hr Hc H1) as (Hr1 & Hc1 & Hk1).
    destruct (IH _ _ Hr1 Hc1 H) as (Hr2 & Hc2 & Hk2).
    repeat split; try assumption.
    rewrite Hk2, Hk1. change (m :: ms) with ([m] ++ ms)%list.
    now rewrite header_names_app, app_assoc.
Qed.

(** X15: the registry of a successful parse is in order: its keys are
    distinct and are the entry names of the headers of the text, in the
    order of the text; the fragment under a key bears that name; and in
    every fragment the capabilities have distinct keys, each the name of
    its capability. *)
Theorem parse_registry_ok (text : string) (fragments : dict Fragment) :
  parse text = Ok fragments ->
  registry_ok fragments = true
  /\ dict_keys fragments = header_names (finditer text).
Proof.
  unfold parse.
  destruct (parse_matches ([], None) (finditer text)) as [st|] eqn:H; [|discriminate].
  cbn [bind]. intros [= <-].
  destruct (parse_matches_ok (finditer text) ([], None) st eq_refl eq_refl H)
    as (Hr & _ & Hk).
  now split.
Qed.

Lemma parse_registry_ok_witness :
  registry_ok
    [("A", mkFragment "A" "first" [("a1", BoolCap "a1"); ("use", StrCap "use" "B")]);
     ("B", mkFragment "B" "second" [("x", BoolCap "x"); ("y", BoolCap "y")])]
  = true.
Proof.
  apply (parse_registry_ok use_source). reflexivity.
Defined.

(** ** What a successful parse requires *)

Lemma unique_keys_NoDup {V : Type} (d : dict V) :
  unique_keys d = true -> NoDup (dict_keys d).
Proof.
  induction d as [|[k v] d IH]; [constructor|].
  cbn [unique_keys]. intros H. bool_cases. cbn. constructor; [|now apply IH].
  intros Hin. unfold dict_in in H. clear IH H0.
  induction d as [|[k0 v0] d IHd]; [contradiction|].
  cbn in H, Hin. destruct (k0 =? k)%string eqn:E; [discriminate|].
  destruct Hin as [->|Hin]; [now rewrite String.eqb_refl in E | now apply IHd].
Qed.

(** what the body of the loop requires of a match it accepts *)
Lemma parse_match_Ok_inv st m st' :
  parse_match st m = Ok st' ->
  (name_grp m = None -> snd st <> None)
  /\ (forall n v, name_grp m = None -> bool_cap m = None ->
                  int_cap m = Some (n, v) -> exists z, int_base0 v = Ok z)
  /\ (forall n v, name_grp m = None -> bool_cap m = None -> int_cap m = None ->
                  str_cap m = Some (n, v) -> search_l (translate v) = false).
Proof.
  destruct st as [fragments cur]. unfold parse_match. cbn [snd].
  destruct (name_grp m) as [[name desc]|].
  { intros _. repeat split; discriminate. }
  destruct (bool_cap m) as [name|].
  { destruct cur; [|discriminate]. intros _. repeat split; discriminate. }
  destruct (int_cap m) as [[name int_val]|].
  { destruct (int_base0 int_val) as [z|] eqn:Hz; [|discriminate]. cbn [bind].
    destruct cur; [|discriminate]. intros _. split; [discriminate|]. split.
    - intros n v _ _ [= <- <-]. now exists z.
    - discriminate. }
  destruct (str_cap m) as [[name str_value]|]; [|discriminate].
  destruct cur; [|discriminate]. cbn [assert_not_None bind].
  destruct (StringCapability name str_value) as [cap|] eqn:Hs; [|discriminate].
  intros _. split; [discriminate|]. split; [discriminate|].
  intros n v _ _ _ [= <- <-]. now apply StringCapability_Ok in Hs.
Qed.

Lemma parse_matches_Ok_each ms : forall st st',
  parse_matches st ms = Ok st' ->
  Forall (fun m => exists st1 st2, parse_match st1 m = Ok st2) ms.
Proof.
  induction ms as [|m ms IH]; intros st st'; [constructor|].
  cbn [parse_matches].
  destruct (parse_match st m) as [st1|] eqn:H1; [|discriminate]. cbn [bind].
  intros H. constructor; [now exists st, st1 | now apply IH with st1 st'].
Qed.

(** X16: what a text must be like for the parse to succeed: its first
    match is an entry header, no two headers bear the same entry name, every
    Integer capability has a literal that [int] accepts, and the
    translation of every String capability's value holds no [\l].  A text
    that fails one of these raises an exception and no registry is built. *)
Theorem parse_Ok_requires (text : string) (fragments : dict Fragment) :
  parse text = Ok fragments ->
  (forall m ms, finditer text = m :: ms -> name_grp m <> None)
  /\ NoDup (header_names (finditer text))
  /\ Forall (fun m =>
       (forall n v, name_grp m = None -> bool_cap m = None ->
                    int_cap m = Some (n, v) -> exists z, int_base0 v = Ok z)
       /\ (forall n v, name_grp m = None -> bool_cap m = None -> int_cap m = None ->
                       str_cap m = Some (n, v) -> search_l (translate v) = false))
       (finditer text).
Proof.
  unfold parse.
  destruct (parse_matches ([], None) (finditer text)) as [st|] eqn:H; [|discriminate].
  cbn [bind]. intros [= <-]. split; [|split].
  - intros m ms Hm. rewrite Hm in H. cbn [parse_matches] in H.
    destruct (parse_match ([], None) m) as [st1|] eqn:H1; [|discriminate].
    apply parse_match_Ok_inv in H1. destruct H1 as (H1 & _).
    intros Hn. now apply H1.
  - destruct (parse_matches_ok (finditer text) ([], None) st eq_refl eq_refl H)
      as (Hr & _ & Hk).
    cbn [fst dict_keys map app] in Hk. rewrite <- Hk.
    apply unique_keys_NoDup. unfold registry_ok in Hr. now bool_cases.
  - apply parse_matches_Ok_each in H.
    eapply Forall_impl; [|exact H].
    intros m (st1 & st2 & Hm). apply parse_match_Ok_inv in Hm. tauto.
Qed.

Lemma parse_Ok_requires_witness :
  NoDup (header_names (finditer use_source)).
Proof.
  apply (parse_Ok_requires use_source
           [("A", mkFragment "A" "first"
                    [("a1", BoolCap "a1"); ("use", StrCap "use" "B")]);
            ("B", mkFragment "B" "second" [("x", BoolCap "x"); ("y", BoolCap "y")])]).
  reflexivity.
Defined.

(** ** The lines of the source *)

Lemma concat_empty_cons x xs :
  String.concat EmptyString (x :: xs) = x ++ String.concat EmptyString xs.
Proof. destruct xs; cbn; [now rewrite append_nil_r | reflexivity]. Qed.

Lemma join_readlines source : join_lines (readlines source) = source.
Proof.
  unfold join_lines. induction source as [|c t IH]; [reflexivity|].
  cbn [readlines]. destruct (c =? newline)%char.
  - rewrite concat_empty_cons. cbn. now rewrite IH.
  - destruct (readlines t) as [|l ls].
    + cbn in IH |- *. now rewrite <- IH.
    + rewrite concat_empty_cons in *. cbn. now rewrite IH.
Qed.

Lemma readlines_newline_only_last source :
  Forall (fun line => newline_only_last line = true) (readlines source).
Proof.
  induction source as [|c t IH]; [constructor|].
  cbn [readlines]. destruct (c =? newline)%char eqn:E.
  - constructor; [reflexivity | exact IH].
  - destruct (readlines t) as [|l ls]; [repeat constructor|].
    inversion IH as [|? ? Hl Hls]; subst. constructor; [|assumption].
    cbn. destruct l; [reflexivity|]. now rewrite E, Hl.
Qed.

Lemma not_space_not_newline c : is_space c = false -> (c =? newline)%char = false.
Proof.
  intros H. destruct (c =? newline)%char eqn:E; [|reflexivity].
  apply Ascii.eqb_eq in E. subst c. discriminate H.
Qed.

Lemma newline_only_last_tail c t :
  newline_only_last (String c t) = true -> newline_only_last t = true.
Proof. cbn. destruct t; [reflexivity|]. intros H. now bool_cases. Qed.

Lemma lstrip_newline_only_last s :
  newline_only_last s = true -> newline_only_last (lstrip s) = true.
Proof.
  induction s as [|c t IH]; [reflexivity|]. intros H.
  cbn [lstrip]. destruct (is_space c); [|exact H].
  apply IH. now apply newline_only_last_tail in H.
Qed.

Lemma rstrip_no_newline s :
  newline_only_last s = true -> no_newline (rstrip s) = true.
Proof.
  induction s as [|c t IH]; [reflexivity|]. intros H.
  pose proof (newline_only_last_tail c t H) as Ht. specialize (IH Ht).
  cbn [rstrip]. destruct (rstrip t) as [|x r] eqn:E.
  - destruct (is_space c) eqn:Hc; [reflexivity|].
    cbn. now rewrite not_space_not_newline.
  - cbn [no_newline] in IH |- *. rewrite IH.
    destruct t as [|y t']; [discriminate E|].
    cbn in H. bool_cases. now rewrite H.
Qed.

Lemma lstrip_head s : head_not_space (lstrip s) = true.
Proof.
  induction s as [|c t IH]; [reflexivity|].
  cbn [lstrip]. destruct (is_space c) eqn:E; [exact IH|]. cbn. now rewrite E.
Qed.

Lemma lstrip_fixed s : head_not_space s = true -> lstrip s = s.
Proof.
  destruct s as [|c t]; [reflexivity|]. cbn. intros H. bool_cases. now rewrite H.
Qed.

Lemma rstrip_head s : head_not_space s = true -> head_not_space (rstrip s) = true.
Proof.
  destruct s as [|c t]; [reflexivity|]. cbn [head_not_space rstrip]. intros H.
  destruct (rstrip t); [|exact H].
  bool_cases. rewrite H. cbn. now rewrite H.
Qed.

Lemma rstrip_idem s : rstrip (rstrip s) = rstrip s.
Proof.
  induction s as [|c t IH]; [reflexivity|].
  cbn [rstrip]. destruct (rstrip t) as [|x r] eqn:E.
  - destruct (is_space c) eqn:Hc; [reflexivity|]. cbn. now rewrite Hc.
  - cbn [rstrip]. cbn [rstrip] in IH. now rewrite IH.
Qed.

Lemma strip_idem s : strip (strip s) = strip s.
Proof.
  unfold strip.
  rewrite (lstrip_fixed (rstrip (lstrip s))) by apply rstrip_head, lstrip_head.
  apply rstrip_idem.
Qed.

Lemma no_newline_app a b :
  no_newline (a ++ b) = no_newline a && no_newline b.
Proof.
  induction a as [|c a IH]; [reflexivity|]. cbn. rewrite IH. apply andb_assoc.
Qed.

Lemma no_newline_is_dot s : no_newline s = all_chars is_dot s.
Proof. induction s as [|c s IH]; [reflexivity|]. cbn. now rewrite IH. Qed.

(** X17: the lines read give the source back when joined; every line
    kept for the parse is a fixed point of [strip], does not begin with [#]
    and holds no newline; and the text joined from them holds no newline,
    so that [.] matches every character of it. *)
Theorem source_lines_stripped (source : string) :
  join_lines (readlines source) = source
  /\ Forall (fun line => startswith "#" line = false
                         /\ strip line = line
                         /\ no_newline line = true)
            (source_lines source)
  /\ no_newline (join_lines (source_lines source)) = true
  /\ all_chars is_dot (join_lines (source_lines source)) = true.
Proof.
  split; [apply join_readlines|].
  assert (Hlines : Forall (fun line => startswith "#" line = false
                                       /\ strip line = line
                                       /\ no_newline line = true)
                          (source_lines source)).
  { unfold source_lines. apply Forall_forall. intros line Hin.
    apply filter_In in Hin. destruct Hin as [Hin Hc].
    apply negb_true_iff in Hc. split; [assumption|].
    apply in_map_iff in Hin. destruct Hin as (raw & <- & Hraw).
    split; [apply strip_idem|].
    pose proof (readlines_newline_only_last source) as Hall.
    rewrite Forall_forall in Hall. specialize (Hall raw Hraw).
    unfold strip. now apply rstrip_no_newline, lstrip_newline_only_last. }
  split; [exact Hlines|].
  assert (Hjoin : no_newline (join_lines (source_lines source)) = true).
  { unfold join_lines. induction Hlines as [|l ls Hl _ IH]; [reflexivity|].
    rewrite concat_empty_cons, no_newline_app, IH.
    destruct Hl as (_ & _ & ->). reflexivity. }
  split; [exact Hjoin | now rewrite <- no_newline_is_dot].
Qed.

(** ** The shape of the matches *)

Lemma span_all p s : all_chars p (fst (span p s)) = true.
Proof.
  induction s as [|c s IH]; [reflexivity|].
  cbn. destruct (p c) eqn:E; [|reflexivity].
  destruct (span p s) as [a b]. cbn in *. now rewrite E.
Qed.

Lemma plus_shape p s a r :
  plus p s = Some (a, r) -> nonempty a && all_chars p a = true.
Proof.
  unfold plus. pose proof (span_all p s) as H.
  destruct (span p s) as [[|c run] rest]; [discriminate|].
  intros [= <- <-]. exact H.
Qed.

Lemma dots_comma_shape s : forall v rest,
  dots_comma s = Some (v, rest) ->
  all_chars is_dot v && all_chars (fun x => negb (x =? ",")%char) v = true.
Proof.
  induction s as [|c s IH]; intros v rest; [discriminate|].
  cbn. destruct (c =? ",")%char eqn:E; [now intros [= <- <-]|].
  destruct (is_dot c) eqn:D; [|discriminate].
  destruct (dots_comma s) as [[v' rest']|]; [|discriminate].
  intros [= <- <-]. specialize (IH v' rest' eq_refl). bool_cases.
  cbn. now rewrite D, E, H, H0.
Qed.

Lemma dots1_comma_shape s v rest :
  dots1_comma s = Some (v, rest) -> lazy_value v = true.
Proof.
  destruct s as [|c s]; [discriminate|]. cbn.
  destruct (is_dot c) eqn:D; [|discriminate].
  destruct (dots_comma s) as [[v' rest']|] eqn:E; [|discriminate].
  intros [= <- <-]. apply dots_comma_shape in E. bool_cases.
  cbn. now rewrite D, H, H0.
Qed.

Lemma hex_comma_shape s v rest :
  hex_comma s = Some (v, rest) -> nonempty v && all_chars is_hex v = true.
Proof.
  unfold hex_comma.
  destruct (plus is_hex s) as [[digits r]|] eqn:Hp; [|discriminate].
  destruct (expect "," r); [|discriminate].
  intros [= <- <-]. now apply plus_shape in Hp.
Qed.

Lemma int_val_comma_shape s v rest :
  int_val_comma s = Some (v, rest) -> is_int_val v = true.
Proof.
  assert (Hplain : forall s v rest, hex_comma s = Some (v, rest) -> is_int_val v = true).
  { intros s0 v0 rest0 H. apply hex_comma_shape in H. unfold is_int_val.
    now rewrite H. }
  unfold int_val_comma.
  destruct (expect "0" s) as [s'|] eqn:E0; [|apply Hplain].
  destruct (expect "x" s') as [w|] eqn:Ex; [|apply Hplain].
  destruct (hex_comma w) as [[digits rest']|] eqn:Hh; [|apply Hplain].
  intros [= <- <-]. apply hex_comma_shape in Hh. unfold is_int_val.
  cbn [append]. cbn [Ascii.eqb Bool.eqb andb]. rewrite Hh. apply orb_true_r.
Qed.

Lemma match_at_shape s m rest :
  match_at s = Some (m, rest) -> match_shape m = true.
Proof.
  unfold match_at, match_shape.
  destruct (match_name s) as [r1|] eqn:H1.
  { intros [= ->]. unfold match_name in H1.
    destruct (plus is_entry_name_chr s) as [[n r]|] eqn:Hp; [|discriminate].
    destruct (expect "|" r) as [r'|]; [|discriminate].
    destruct (dots1_comma r') as [[v rest']|] eqn:Hd; [|discriminate].
    injection H1 as <- <-. cbn.
    apply plus_shape in Hp. apply dots1_comma_shape in Hd. now rewrite Hp, Hd. }
  destruct (match_bool s) as [r2|] eqn:H2.
  { intros [= ->]. unfold match_bool in H2.
    destruct (plus is_word s) as [[n r]|] eqn:Hp; [|discriminate].
    destruct (expect "," r); [|discriminate].
    injection H2 as <- <-. cbn. now apply plus_shape in Hp. }
  destruct (match_int s) as [r3|] eqn:H3.
  { intros [= ->]. unfold match_int in H3.
    destruct (plus is_word s) as [[n r]|] eqn:Hp; [|discriminate].
    destruct (expect "#" r) as [r'|]; [|discriminate].
    destruct (int_val_comma r') as [[v rest']|] eqn:Hd; [|discriminate].
    injection H3 as <- <-. cbn.
    apply plus_shape in Hp. apply int_val_comma_shape in Hd. now rewrite Hp, Hd. }
  intros H4. unfold match_str in H4.
  destruct (plus is_word s) as [[n r]|] eqn:Hp; [|discriminate].
  destruct (expect "=" r) as [r'|]; [|discriminate].
  destruct (dots1_comma r') as [[v rest']|] eqn:Hd; [|discriminate].
  injection H4 as <- <-. cbn.
  apply plus_shape in Hp. apply dots1_comma_shape in Hd. now rewrite Hp, Hd.
Qed.

Lemma finditer_from_Forall (P : Match -> Prop) :
  (forall s m rest, match_at s = Some (m, rest) -> P m) ->
  forall text skip, Forall P (finditer_from skip text).
Proof.
  intros HP. induction text as [|c t IH]; intros skip; [constructor|].
  cbn [finditer_from]. destruct skip as [|k]; [|apply IH].
  destruct (match_at (String c t)) as [[m rest]|] eqn:H; [|apply IH].
  constructor; [now apply HP in H | apply IH].
Qed.

(** X18: every match the scan yields has exactly one of the four groups
    set; its name is not empty and made of the characters of its class; a
    description or String value is not empty and holds neither a newline
    nor, behind its first character, a comma, so that a value with an
    escaped comma ends at the backslash; an Integer value is a run of
    hexadecimal digits, with or without the prefix [0x]. *)
Theorem finditer_match_shape (text : string) :
  Forall (fun m => match_shape m = true) (finditer text).
Proof.
  unfold finditer. apply finditer_from_Forall. exact match_at_shape.
Qed.
